(** * caching-proxy: the disk cache backend and the proxy handler

    A shallow embedding of the Go program: the on-disk cache [DeskCache]
    (constructor, [Set], [Get], [Clear], the serialisation helpers) and the
    HTTP handler [handleRequests], together with models of the pieces of the
    Go standard library they call ([strings.Split], [strconv.Itoa]/[Atoi],
    [textproto.CanonicalMIMEHeaderKey], [path/filepath.Join], the [os] file
    operations and the [http.ResponseWriter] protocol). *)

From Stdlib Require Import ZArith Lia Ascii String List.
From Stdlib.Strings Require Import Byte.
From Stdlib Require Import Decimal DecimalString DecimalPos DecimalZ.
From stdpp Require Import base option list strings gmap fin_maps.

Local Open Scope Z_scope.
Local Open Scope list_scope.

(* ===================================================================== *)
(** * Go standard library: strings and numbers *)
(* ===================================================================== *)

Module GoStrings.

(** [strings.Split(s, sep)] for a one-byte separator, which is what both
    call sites pass (a newline, a comma).  The result always has one more
    element than [s] has separators; [Split "" sep] is [[""]]. *)
Fixpoint Split (s : string) (sep : ascii) : list string :=
  match s with
  | EmptyString => [EmptyString]
  | String c s' =>
      if decide (c = sep) then EmptyString :: Split s' sep
      else match Split s' sep with
           | x :: xs => String c x :: xs
           | [] => [String c EmptyString]
           end
  end.

(** The byte [c] occurs in [s]. *)
Fixpoint contains (s : string) (c : ascii) : bool :=
  match s with
  | EmptyString => false
  | String c' s' => bool_decide (c' = c) || contains s' c
  end.

(** [strings.HasPrefix]-style test on the first byte. *)
Definition starts_with (s : string) (c : ascii) : bool :=
  match s with
  | String c' _ => bool_decide (c' = c)
  | EmptyString => false
  end.

(** Conversions [[]byte(s)] and [string(b)]. *)
Definition bytes_of (s : string) : list byte := list_byte_of_string s.
Definition string_of (b : list byte) : string := string_of_list_byte b.

End GoStrings.
Import GoStrings.

Module Strconv.

Definition intSize : Z := 64.
Definition MaxInt : Z := 2 ^ (intSize - 1) - 1.
Definition MinInt : Z := - 2 ^ (intSize - 1).

(** The values of Go's [int]. *)
Definition is_int (n : Z) : Prop := MinInt <= n <= MaxInt.

Inductive NumError := ErrSyntax | ErrRange.

(** [strconv.Itoa]: the decimal representation, with a leading minus sign
    for negative numbers and no leading zeros. *)
Definition Itoa (n : Z) : string := NilEmpty.string_of_int (Z.to_int n).

(** The digit loop of [Atoi]: [ch -= '0'; if ch > 9 { syntax error };
    n = n*10 + int(ch)], the subtraction being on bytes. *)
Fixpoint digits (s : string) (n : Z) : option Z :=
  match s with
  | EmptyString => Some n
  | String ch s' =>
      let d := (Z.of_N (N_of_ascii ch) - 48) mod 256 in
      if 9 <? d then None else digits s' (n * 10 + d)
  end.

(** [strconv.Atoi]: an optional sign, then at least one decimal digit.
    A syntax error yields 0; a number outside [int] yields the nearest
    bound together with [ErrRange]. *)
Definition sign_body (s : string) : bool * string :=
  match s with
  | String "-"%char s' => (true, s')
  | String "+"%char s' => (false, s')
  | _ => (false, s)
  end.

Definition Atoi (s : string) : Z * option NumError :=
  let '(neg, body) := sign_body s in
  match body with
  | EmptyString => (0, Some ErrSyntax)
  | _ =>
      match digits body 0 with
      | None => (0, Some ErrSyntax)
      | Some un =>
          let cutoff := 2 ^ (intSize - 1) in
          if negb neg && (cutoff <=? un) then (cutoff - 1, Some ErrRange)
          else if neg && (cutoff <? un) then (- cutoff, Some ErrRange)
          else (if neg then - un else un, None)
      end
  end.

End Strconv.
Import Strconv.

Module Textproto.

Definition is_lower (c : ascii) : bool :=
  let n := N_of_ascii c in (97 <=? n)%N && (n <=? 122)%N.
Definition is_upper (c : ascii) : bool :=
  let n := N_of_ascii c in (65 <=? n)%N && (n <=? 90)%N.
Definition is_digit (c : ascii) : bool :=
  let n := N_of_ascii c in (48 <=? n)%N && (n <=? 57)%N.

(** [validHeaderFieldByte]: the token characters of RFC 7230. *)
Definition validHeaderFieldByte (c : ascii) : bool :=
  is_lower c || is_upper c || is_digit c ||
  contains "!#$%&'*+-.^_`|~" c.

Fixpoint all_valid (s : string) : bool :=
  match s with
  | EmptyString => true
  | String c s' => validHeaderFieldByte c && all_valid s'
  end.

Definition toLower : N := 32.

(** The rewriting loop of [canonicalMIMEHeaderKey]: upper case at the start
    and after each hyphen, lower case elsewhere. *)
Fixpoint canon (upper : bool) (s : string) : string :=
  match s with
  | EmptyString => EmptyString
  | String c s' =>
      let c' :=
        if upper && is_lower c then ascii_of_N (N_of_ascii c - toLower)
        else if negb upper && is_upper c then ascii_of_N (N_of_ascii c + toLower)
        else c in
      String c' (canon (bool_decide (c' = "-"%char)) s')
  end.

(** [textproto.CanonicalMIMEHeaderKey]: a key holding a space or any other
    byte that is not a token character is returned unchanged. *)
Definition CanonicalMIMEHeaderKey (s : string) : string :=
  if all_valid s then canon true s else s.

End Textproto.
Import Textproto.


(* ===================================================================== *)
(** * Go standard library: paths and the file system *)
(* ===================================================================== *)

Module Filepath.

(** A path element that names nothing: the empty element left by a doubled
    or leading separator, and [.]. *)
Definition skipped (c : string) : Prop := c = "" ∨ c = ".".

(** The element loop of [filepath.Clean].  [stk] holds the elements kept so
    far, innermost first.  A [..] removes the element before it; at the
    start of a rooted path it is dropped, at the start of a relative path
    it is kept. *)
Fixpoint clean_elems (rooted : bool) (stk cs : list string) : list string :=
  match cs with
  | [] => stk
  | c :: cs' =>
      if decide (skipped c) then clean_elems rooted stk cs'
      else if decide (c = "..") then
        match stk with
        | x :: stk' =>
            if decide (x = "..") then clean_elems rooted (".." :: stk) cs'
            else clean_elems rooted stk' cs'
        | [] =>
            if rooted then clean_elems rooted [] cs'
            else clean_elems rooted [".."] cs'
        end
      else clean_elems rooted (c :: stk) cs'
  end.

(** [filepath.Clean] on a Unix path. *)
Definition Clean (p : string) : string :=
  let rooted := starts_with p "/"%char in
  let out := rev (clean_elems rooted [] (Split p "/"%char)) in
  if rooted then "/" +:+ String.concat "/" out
  else match out with
       | [] => "."
       | _ => String.concat "/" out
       end.

(** [filepath.Join]: leading empty elements are ignored, the rest is joined
    with the separator and cleaned; with nothing but empty elements the
    result is the empty string. *)
Fixpoint Join (elem : list string) : string :=
  match elem with
  | [] => ""
  | e :: rest =>
      if decide (e = "") then Join rest
      else Clean (String.concat "/" elem)
  end.

End Filepath.
Import Filepath.


Module Os.

Inductive Errno := ENOENT | ENOTDIR | EISDIR | EINVAL | EBUSY | EBADF.

(** What a name in the file system denotes.  Permission bits and symbolic
    links are not modelled: a path is unreadable when it names a directory
    or nothing at all. *)
Inductive node := File (content : list byte) | Dir.

(** A file system: the nodes by their absolute location (the list of
    directory names from the root), and the working directory of the
    process.  The root itself is always a directory. *)
Record FS := mkFS { tree : gmap (list string) node; cwd : list string }.

Definition set_tree (t : gmap (list string) node) (fs : FS) : FS :=
  mkFS t (cwd fs).

(** Following the elements of a path from a location ([stk], innermost
    name first). *)
Fixpoint walk (stk cs : list string) : list string :=
  match cs with
  | [] => stk
  | c :: cs' =>
      if decide (skipped c) then walk stk cs'
      else if decide (c = "..") then walk (tail stk) cs'
      else walk (c :: stk) cs'
  end.

(** The location a path string denotes: from the root when it starts with
    a separator, from the working directory otherwise. *)
Definition resolve (fs : FS) (p : string) : list string :=
  rev (walk (if starts_with p "/"%char then [] else rev (cwd fs)) (Split p "/"%char)).

Definition lookup_node (fs : FS) (q : list string) : option node :=
  match q with
  | [] => Some Dir
  | _ => tree fs !! q
  end.

(** A regular file lies on the way from [done] down along [rest]. *)
Fixpoint file_on_way (fs : FS) (done rest : list string) : bool :=
  match rest with
  | [] => false
  | c :: rest' =>
      match lookup_node fs (done ++ [c]) with
      | Some (File _) => true
      | _ => file_on_way fs (done ++ [c]) rest'
      end
  end.

Definition missing (fs : FS) (q : list string) : Errno :=
  if file_on_way fs [] q then ENOTDIR else ENOENT.

Record FileInfo := { IsDir : bool }.

(** [os.Stat]. *)
Definition Stat (fs : FS) (p : string) : Errno + FileInfo :=
  if decide (p = "") then inl ENOENT
  else let q := resolve fs p in
    match lookup_node fs q with
    | Some Dir => inr {| IsDir := true |}
    | Some (File _) => inr {| IsDir := false |}
    | None => inl (missing fs q)
    end.

(** [os.IsNotExist]. *)
Definition IsNotExist (e : Errno) : bool :=
  match e with ENOENT => true | _ => false end.

(** [os.ReadFile]. *)
Definition ReadFile (fs : FS) (p : string) : Errno + list byte :=
  if decide (p = "") then inl ENOENT
  else let q := resolve fs p in
    match lookup_node fs q with
    | Some (File c) => inr c
    | Some Dir => inl EISDIR
    | None => inl (missing fs q)
    end.

(** The loop of [os.MkdirAll] over the names of the location: an existing
    directory is passed through, a missing one is made, a regular file in
    the way stops it. *)
Fixpoint mkdir_all (fs : FS) (done rest : list string) : FS * option Errno :=
  match rest with
  | [] => (fs, None)
  | c :: rest' =>
      let d := done ++ [c] in
      match lookup_node fs d with
      | Some Dir => mkdir_all fs d rest'
      | Some (File _) => (fs, Some ENOTDIR)
      | None => mkdir_all (set_tree (<[d := Dir]> (tree fs)) fs) d rest'
      end
  end.

(** [os.MkdirAll]: when the path is there already the call ends at once,
    with success for a directory and [ENOTDIR] for a regular file. *)
Definition MkdirAll (p : string) (fs : FS) : FS * option Errno :=
  match Stat fs p with
  | inr dir => if IsDir dir then (fs, None) else (fs, Some ENOTDIR)
  | inl _ =>
      if decide (p = "") then (fs, Some ENOENT)
      else mkdir_all fs [] (resolve fs p)
  end.

(** An open file: the location it was opened at. *)
Definition file := list string.

(** [os.Create]: the file is made, or emptied when it is there already. *)
Definition Create (p : string) (fs : FS) : FS * (Errno + file) :=
  if decide (p = "") then (fs, inl ENOENT)
  else let q := resolve fs p in
    match lookup_node fs (removelast q) with
    | Some Dir =>
        match lookup_node fs q with
        | Some Dir => (fs, inl EISDIR)
        | _ => (set_tree (<[q := File []]> (tree fs)) fs, inr q)
        end
    | Some (File _) => (fs, inl ENOTDIR)
    | None => (fs, inl (missing fs q))
    end.

(** [WriteString] on an open file. *)
Definition WriteString (f : file) (s : string) (fs : FS) : FS * option Errno :=
  match tree fs !! f with
  | Some (File c) =>
      (set_tree (<[f := File (c ++ bytes_of s)]> (tree fs)) fs, None)
  | _ => (fs, Some EBADF)
  end.

(** The guard of [os.RemoveAll] against paths whose last element is [.]. *)
Fixpoint endsWithDot (p : string) : bool :=
  match p with
  | "." => true
  | String "/"%char "." => true
  | String _ p' => endsWithDot p'
  | EmptyString => false
  end.

(** [os.RemoveAll]: the empty path is accepted and does nothing, a path
    ending in [.] is refused with [EINVAL], a missing path is no error, and
    otherwise the node and everything below it go.  The root directory can
    be emptied but not removed. *)
Definition RemoveAll (p : string) (fs : FS) : FS * option Errno :=
  if decide (p = "") then (fs, None)
  else if endsWithDot p then (fs, Some EINVAL)
  else let q := resolve fs p in
    match q with
    | [] => (set_tree ∅ fs, Some EBUSY)
    | _ => (set_tree (filter (λ kv, ¬ q `prefix_of` kv.1) (tree fs)) fs, None)
    end.

End Os.
Import Os.

(* ===================================================================== *)
(** * Processes: state, exit and panic *)
(* ===================================================================== *)

Module Proc.

(** How a call ends: it returns, the process exits ([log.Fatalf]), or the
    goroutine panics.  The state reached is kept in each case. *)
Inductive result (S A : Type) : Type :=
| Ok (a : A) (s : S)
| Exit (s : S)
| Panic (s : S).
Arguments Ok {S A} a s.
Arguments Exit {S A} s.
Arguments Panic {S A} s.

Definition M (S A : Type) : Type := S → result S A.

Definition ret {S A} (a : A) : M S A := λ s, Ok a s.

Definition bind {S A B} (m : M S A) (k : A → M S B) : M S B :=
  λ s, match m s with
       | Ok a s' => k a s'
       | Exit s' => Exit s'
       | Panic s' => Panic s'
       end.

(** A library call that returns a value and a new state. *)
Definition call {S A} (f : S → S * A) : M S A :=
  λ s, let '(s', a) := f s in Ok a s'.

(** Reading the state. *)
Definition gets {S A} (f : S → A) : M S A := λ s, Ok (f s) s.

Definition Fatalf {S A} : M S A := λ s, Exit s.
Definition panic {S A} : M S A := λ s, Panic s.

Definition final_state {S A} (r : result S A) : S :=
  match r with Ok _ s | Exit s | Panic s => s end.

Definition returned {S A} (r : result S A) : option A :=
  match r with Ok a _ => Some a | _ => None end.

End Proc.
Import Proc.

Notation "x <- m ;; k" := (bind m (λ x, k))
  (at level 100, m at next level, right associativity,
   format "'[v' x  <-  m  ;;  '/' k ']'").
Notation "m ;;; k" := (bind m (λ _, k))
  (at level 100, right associativity).

(* ===================================================================== *)
(** * Go maps: iteration order *)
(* ===================================================================== *)

Module GoMap.

(** The order in which [range] visits a map is not specified.  A [seed]
    stands for the choices of the runtime: it selects, one after the other,
    which of the remaining entries comes next. *)
Fixpoint shuffle {A} (seed : list nat) (l : list A) : list A :=
  match seed with
  | [] => l
  | i :: seed' =>
      match l !! i with
      | Some x => x :: shuffle seed' (delete i l)
      | None => l
      end
  end.

Definition range {V} (seed : list nat) (m : gmap string V) : list (string * V) :=
  shuffle seed (map_to_list m).

End GoMap.
Import GoMap.

(* ===================================================================== *)
(** * The cache entry and the disk backend *)
(* ===================================================================== *)

(** The newline byte and the one-byte strings of the headers format. *)
Definition nl : ascii := "010"%char.
Definition comma : ascii := ","%char.
Definition NL : string := String nl "".
Definition COMMA : string := String comma "".

Module Http.

(** [http.Header]: header name to its values, in order. *)
Abbreviation Header := (gmap string (list string)).

Definition values (h : Header) (k : string) : list string :=
  default [] (h !! k).

(** [Header.Add]: the name is canonicalised, the value appended. *)
Definition Add (h : Header) (key value : string) : Header :=
  let k := CanonicalMIMEHeaderKey key in
  <[k := values h k ++ [value]]> h.

(** [Header.Set]. *)
Definition HSet (h : Header) (key value : string) : Header :=
  <[CanonicalMIMEHeaderKey key := [value]]> h.

(** [Header.Del]. *)
Definition Del (h : Header) (key : string) : Header :=
  delete (CanonicalMIMEHeaderKey key) h.

End Http.
Import Http.

Record CacheEntry := mkEntry {
  StatusCode : Z;
  Body : list byte;
  Headers : Header;
}.

(** [time.Duration], in nanoseconds. *)
Definition Duration := Z.

Record DeskCache := mkDeskCache {
  DirPath : string;
  TTL : Duration;
}.

(** Go's [error] values as far as this program makes them. *)
Inductive error :=
| PathError (op path : string) (e : Errno)
| Errorf (msg : string).

Definition errno_text (e : Errno) : string :=
  match e with
  | ENOENT => "no such file or directory"
  | ENOTDIR => "not a directory"
  | EISDIR => "is a directory"
  | EINVAL => "invalid argument"
  | EBUSY => "device or resource busy"
  | EBADF => "bad file descriptor"
  end.

Definition validateDirPath (path : string) (fs : FS) : option error :=
  match Stat fs path with
  | inl err =>
      if IsNotExist err then Some (Errorf "the directory does not exist")
      else Some (Errorf ("could not access the directory: " +:+ "stat " +:+ path
                         +:+ ": " +:+ errno_text err))
  | inr info =>
      if negb (IsDir info) then Some (Errorf "the path is not a directory")
      else None
  end.

Definition NewDeskCache (dirPath serverPort : string) (ttl : Duration)
  : M FS (error + DeskCache) :=
  v <- gets (validateDirPath dirPath) ;;
  match v with
  | Some err => ret (inl err)
  | None =>
      e <- call (MkdirAll dirPath) ;;
      match e with
      | Some err => ret (inl (PathError "mkdir" dirPath err))
      | None => ret (inr {| DirPath := dirPath; TTL := ttl |})
      end
  end.

Definition createAndWriteFile (path content : string) : M FS (option error) :=
  r <- call (Create path) ;;
  match r with
  | inl err => ret (Some (PathError "open" path err))
  | inr file =>
      e <- call (WriteString file content) ;;
      match e with
      | Some err => ret (Some (PathError "write" path err))
      | None => ret None
      end
  end.

(** The loop of [storeEntryData] that builds the headers file, over the
    entries in the order [range] yields them. *)
Definition headersStr (entries : list (string * list string)) : string :=
  fold_left
    (λ acc kvv,
       let acc := acc +:+ kvv.1 in
       let acc := fold_left (λ acc v, acc +:+ COMMA +:+ v) kvv.2 acc in
       acc +:+ NL)
    entries "".

Definition storeEntryData (entryDir : string) (ce : CacheEntry) (seed : list nat)
  : M FS (option error) :=
  let statusPath := Join [entryDir; "status"] in
  let headersPath := Join [entryDir; "headers"] in
  let bodyPath := Join [entryDir; "body"] in
  let headersStr := headersStr (range seed (Headers ce)) in
  e <- createAndWriteFile statusPath (Itoa (StatusCode ce)) ;;
  match e with
  | Some err => ret (Some err)
  | None =>
      e <- createAndWriteFile headersPath headersStr ;;
      match e with
      | Some err => ret (Some err)
      | None =>
          e <- createAndWriteFile bodyPath (string_of (Body ce)) ;;
          match e with
          | Some err => ret (Some err)
          | None => ret None
          end
      end
  end.

(** [(dc *DeskCache) Set]. *)
Definition DeskCache_Set (dc : DeskCache) (key : string) (val : CacheEntry)
    (seed : list nat) : M FS (option error) :=
  let entryDir := Join [DirPath dc; key] in
  err <- call (MkdirAll entryDir) ;;
  match err with
  | Some _ => Fatalf
  | None => storeEntryData entryDir val seed
  end.

(** The two nested loops of [Get] over the headers file. *)
Definition parseHeaders (cont : string) : Header :=
  fold_left
    (λ h line,
       let header := Split line comma in
       let key := hd "" header in
       fold_left (λ h val, Add h key val) (tail header) h)
    (Split cont nl) ∅.

(** [(dc *DeskCache) Get]. *)
Definition DeskCache_Get (dc : DeskCache) (key : string) (fs : FS)
  : option CacheEntry * bool :=
  let statusPath := Join [DirPath dc; key; "status"] in
  let headersPath := Join [DirPath dc; key; "headers"] in
  let bodyPath := Join [DirPath dc; key; "body"] in
  match ReadFile fs statusPath with
  | inl _ => (None, false)
  | inr cont =>
      let code := (Atoi (string_of cont)).1 in
      match ReadFile fs headersPath with
      | inl _ => (None, false)
      | inr cont =>
          let headers := parseHeaders (string_of cont) in
          match ReadFile fs bodyPath with
          | inl _ => (None, false)
          | inr cont =>
              (Some {| StatusCode := code; Body := cont; Headers := headers |},
               true)
          end
      end
  end.

(** [(dc *DeskCache) Clear]. *)
Definition DeskCache_Clear (dc : DeskCache) : M FS (option error) :=
  e <- call (RemoveAll (DirPath dc)) ;;
  match e with
  | Some err => ret (Some (PathError "RemoveAll" (DirPath dc) err))
  | None => ret None
  end.

(* ===================================================================== *)
(** * The HTTP surface: response writer, upstream client, handler *)
(* ===================================================================== *)

Module Server.

(** [http.Header.Get]: the first value of a header, or the empty string. *)
Definition HGet (h : Header) (key : string) : string :=
  hd "" (values h (CanonicalMIMEHeaderKey key)).

(** The server side of [http.ResponseWriter]: the header map the handler
    edits, the interim (1xx) responses already sent, the status line and
    header snapshot of the final response once it is written, and the
    body bytes. *)
Record ResponseWriter := mkRW {
  handlerHeader : Header;
  interim : list (Z * Header);
  wroteHeader : option (Z * Header);
  written : list byte;
}.

Definition freshRW : ResponseWriter := mkRW ∅ [] None [].

(** Every status line with its headers that went to the client. *)
Definition sent (w : ResponseWriter) : list (Z * Header) :=
  interim w ++ option_list (wroteHeader w).

(** [w.Header()] followed by an update of the map. *)
Definition editHeader (f : Header → Header) : M ResponseWriter () :=
  λ w, Ok () (mkRW (f (handlerHeader w)) (interim w) (wroteHeader w) (written w)).

(** [w.WriteHeader]: a code outside 100..999 panics; a second call is
    ignored; a 1xx code other than 101 sends an interim response; any
    other code fixes the status and the headers of the response. *)
Definition WriteHeader (code : Z) : M ResponseWriter () :=
  λ w, match wroteHeader w with
       | Some _ => Ok () w
       | None =>
           if (code <? 100) || (999 <? code) then Panic w
           else if (100 <=? code) && (code <=? 199) && negb (code =? 101) then
             Ok () (mkRW (handlerHeader w) (interim w ++ [(code, handlerHeader w)])
                         None (written w))
           else
             Ok () (mkRW (handlerHeader w) (interim w)
                         (Some (code, handlerHeader w)) (written w))
       end.

Definition bodyAllowedForStatus (status : Z) : bool :=
  negb (((100 <=? status) && (status <=? 199)) || (status =? 204) || (status =? 304)).

(** [w.Write]: writes the header with status 200 first when none was
    written. *)
Definition Write (b : list byte) : M ResponseWriter () :=
  WriteHeader 200 ;;;
  (λ w, match wroteHeader w with
        | Some (status, _) =>
            if bodyAllowedForStatus status then
              Ok () (mkRW (handlerHeader w) (interim w) (wroteHeader w) (written w ++ b))
            else Ok () w
        | None => Ok () w
        end).

(** [http.Error]. *)
Definition Error (msg : string) (code : Z) : M ResponseWriter () :=
  editHeader (λ h, Del h "Content-Length") ;;;
  editHeader (λ h, HSet h "Content-Type" "text/plain; charset=utf-8") ;;;
  editHeader (λ h, HSet h "X-Content-Type-Options" "nosniff") ;;;
  WriteHeader code ;;;
  Write (bytes_of (msg +:+ NL)).

Definition StatusInternalServerError : Z := 500.

Record URL := { Path : string; RawQuery : string }.

(** The incoming request, as far as the handler looks at it. *)
Record Request := {
  Method : string;
  Url : URL;
  ReqBody : list byte;
}.

(** An outgoing request as [http.NewRequest] is asked to build it. *)
Record UpstreamRequest := {
  up_method : string;
  up_url : string;
  up_body : list byte;
}.

(** What the origin answers: status and headers, and the body stream,
    which is read in full or fails on the way. *)
Record Response := {
  RespStatusCode : Z;
  RespHeader : Header;
  RespBody : option (list byte);
}.

(** The upstream collaborator: which requests can be built, and what the
    origin answers (nothing when the transport fails). *)
Record Client := {
  NewRequest : string → string → list byte → option UpstreamRequest;
  Do : UpstreamRequest → option Response;
}.

(** [io.ReadAll]. *)
Definition ReadAll (body : option (list byte)) : option (list byte) := body.

(** [copyHeaders]: both loops, over the entries of [src] in the order
    [range] yields them. *)
Definition copyHeaders (dis src : Header) (seed : list nat) : Header :=
  fold_left
    (λ dis kvv, fold_left (λ dis v, Add dis kvv.1 v) kvv.2 dis)
    (range seed src) dis.

(** [log.Println] of its operands (without the time stamp). *)
Definition Sprintln (args : list string) : string :=
  String.concat " " args +:+ NL.

Section Handler.

(** The cache behind the handler: the disk backend in one variant of the
    server, the in-memory store of an external package in the other.
    [Store] is the state it keeps. *)
Context {Cache Store : Type}.
Variable cache_get : Cache → string → Store → option CacheEntry * bool.
Variable cache_put : Cache → string → CacheEntry → M Store ().
Variable client : Client.

Record CachingProxyServer := {
  Port : string;
  Origin : string;
  Cache_ : Cache;
}.

(** What a request handler acts on. *)
Record World := mkWorld {
  store : Store;
  w : ResponseWriter;
  wire : list UpstreamRequest;
  logs : list string;
}.

Definition on_store {A} (m : M Store A) : M World A :=
  λ wd, let k s := mkWorld s (w wd) (wire wd) (logs wd) in
        match m (store wd) with
        | Ok a s => Ok a (k s)
        | Exit s => Exit (k s)
        | Panic s => Panic (k s)
        end.

Definition on_w {A} (m : M ResponseWriter A) : M World A :=
  λ wd, let k x := mkWorld (store wd) x (wire wd) (logs wd) in
        match m (w wd) with
        | Ok a x => Ok a (k x)
        | Exit x => Exit (k x)
        | Panic x => Panic (k x)
        end.

Definition Println (args : list string) : M World () :=
  λ wd, Ok () (mkWorld (store wd) (w wd) (wire wd) (logs wd ++ [Sprintln args])).

(** [http.DefaultClient.Do]: the request goes on the wire. *)
Definition client_Do (req : UpstreamRequest) : M World (option Response) :=
  λ wd, Ok (Do client req)
           (mkWorld (store wd) (w wd) (wire wd ++ [req]) (logs wd)).

(** The cache key of a request: [fmt.Sprintf("%s-%s", r.Method, r.URL.Path)]. *)
Definition cacheKey (r : Request) : string :=
  Method r +:+ "-" +:+ Path (Url r).

(** [handleRequests].  [seed] fixes the iteration order of the one
    [copyHeaders] call the request makes.  The locks are not modelled. *)
Definition handleRequests (cps : CachingProxyServer) (r : Request)
    (seed : list nat) : M World () :=
  let key := cacheKey r in
  got <- gets (λ wd, cache_get (Cache_ cps) key (store wd)) ;;
  if got.2 && bool_decide (Method r = "GET") then
    Println ["HIT:  "; key] ;;;
    on_w (editHeader (λ h, HSet h "X-Cache" "HIT")) ;;;
    match got.1 with
    | None => panic
    | Some val =>
        on_w (WriteHeader (StatusCode val)) ;;;
        on_w (editHeader (λ h, copyHeaders h (Headers val) seed)) ;;;
        on_w (Write (Body val))
    end
  else
    Println ["MISS: "; key] ;;;
    on_w (editHeader (λ h, HSet h "X-Cache" "MISS")) ;;;
    match NewRequest client (Method r) (Origin cps +:+ Path (Url r)) (ReqBody r) with
    | None => on_w (Error "error forwarding request" StatusInternalServerError)
    | Some upstreamReq =>
        resp <- client_Do upstreamReq ;;
        match resp with
        | None => on_w (Error "error forwarding request" StatusInternalServerError)
        | Some resp =>
            match ReadAll (RespBody resp) with
            | None => on_w (Error "error forwarding request" StatusInternalServerError)
            | Some body =>
                on_w (WriteHeader (RespStatusCode resp)) ;;;
                on_w (editHeader (λ h, copyHeaders h (RespHeader resp) seed)) ;;;
                on_w (Write body) ;;;
                if bool_decide (Method r = "GET") then
                  on_store (cache_put (Cache_ cps) key
                              {| StatusCode := RespStatusCode resp;
                                 Body := body;
                                 Headers := RespHeader resp |})
                else ret ()
            end
        end
    end.

End Handler.

Arguments CachingProxyServer : clear implicits.
Arguments World : clear implicits.

(** The server of the disk variant: its cache is a [DeskCache], its store
    the file system.  [Set]'s error is dropped, as the handler drops it. *)
Definition disk_put (seed : list nat) (dc : DeskCache) (key : string)
    (val : CacheEntry) : M FS () :=
  DeskCache_Set dc key val seed ;;; ret ().

Definition handleRequests_disk (client : Client) (put_seed : list nat) :=
  handleRequests DeskCache_Get (disk_put put_seed) client.

Definition Hour : Duration := 3600 * 1000000000.

(** [NewCachingProxyServer] of the disk variant: the cache root is the
    working directory and the TTL one hour, whatever [cacheTTL] says. *)
Definition NewCachingProxyServer (port origin : string) (cacheTTL : Duration)
  : M FS (error + CachingProxyServer DeskCache) :=
  c <- NewDeskCache "." port (1 * Hour) ;;
  match c with
  | inl err => ret (inl (Errorf "couldn't set a cache for the server. error"))
  | inr cache => ret (inr {| Port := port; Origin := origin; Cache_ := cache |})
  end.

End Server.
Import Server.

(* ===================================================================== *)
(** * The headers format *)
(* ===================================================================== *)

(** One line of the headers file as the format describes it: the name and
    the values joined by commas, closed by a newline. *)
Definition header_record (kvv : string * list string) : string :=
  String.concat COMMA (kvv.1 :: kvv.2).

Definition header_line (kvv : string * list string) : string :=
  header_record kvv +:+ NL.

(** The headers file as the format describes it: one line per entry. *)
Definition headers_file (entries : list (string * list string)) : string :=
  String.concat "" (map header_line entries).

(** What one parsed record adds to a header map. *)
Definition add_record (h : Header) (kvv : string * list string) : Header :=
  fold_left (λ h v, Add h kvv.1 v) kvv.2 h.

(** A line is a header record when it has a name and at least one value,
    that is, when it holds a comma. *)
Definition well_formed_line (line : string) : bool := contains line comma.

(** The record a well-formed line stands for. *)
Definition record_of_line (line : string) : string * list string :=
  let fields := Split line comma in (hd "" fields, tail fields).

(** The string [filepath.Join] cleans, for a directory and a key. *)
Definition joined (d k : string) : string :=
  if decide (d = "") then k else d +:+ "/" +:+ k.

(** A plain file name: one path element that is neither empty nor a dot
    element. *)
Definition file_name (f : string) : Prop :=
  contains f "/"%char = false ∧ ¬ skipped f ∧ f ≠ "..".

(** Where the directory of a key and the three files in it lie. *)
Definition entry_dir (dc : DeskCache) (key : string) (fs : FS) : list string :=
  resolve fs (Join [DirPath dc; key]).

Definition entry_file (dc : DeskCache) (key f : string) (fs : FS) : list string :=
  entry_dir dc key fs ++ [f].

(** The regular file at a location, if there is one. *)
Definition file_at (fs : FS) (q : list string) : option (list byte) :=
  match tree fs !! q with
  | Some (File c) => Some c
  | _ => None
  end.

(** [MkdirAll] makes directories and nothing else. *)
Definition only_dirs_added (fs fs' : FS) : Prop :=
  cwd fs' = cwd fs ∧
  ∀ q, tree fs' !! q = tree fs !! q
       ∨ (tree fs !! q = None ∧ tree fs' !! q = Some Dir).

(** The effect of a successful [createAndWriteFile]. *)
Definition write_file (fs : FS) (q : list string) (content : string) : FS :=
  set_tree (<[q := File (bytes_of content)]> (tree fs)) fs.

(** What the disk holds after [storeEntryData] has returned no error. *)
Definition stored (fs : FS) (dir : list string) (ce : CacheEntry)
    (seed : list nat) : FS :=
  write_file
    (write_file
       (write_file fs (dir ++ ["status"]) (Itoa (StatusCode ce)))
       (dir ++ ["headers"]) (headersStr (range seed (Headers ce))))
    (dir ++ ["body"]) (string_of (Body ce)).

(** A name or value the headers format can carry: it holds neither of the
    two delimiters. *)
Definition plain (s : string) : bool :=
  negb (contains s comma) && negb (contains s nl).

(** A header the format carries faithfully: the name is in canonical form,
    name and values are free of delimiters, and there is at least one
    value. *)
Definition storable_header (k : string) (vv : list string) : bool :=
  bool_decide (CanonicalMIMEHeaderKey k = k) && plain k
  && negb (bool_decide (vv = [])) && forallb plain vv.

Definition storable (h : Header) : Prop :=
  map_Forall (λ k vv, storable_header k vv = true) h.



(** A disk for the examples: the working directory [/srv] with an empty
    directory [cache] in it. *)
Definition fs_demo : FS :=
  mkFS (<[ ["srv"; "cache"] := Dir ]> (<[ ["srv"] := Dir ]> ∅)) ["srv"].

Definition dc_demo : DeskCache := {| DirPath := "cache"; TTL := 3600 * 1000000000 |}.

Definition entry_demo : CacheEntry :=
  {| StatusCode := 200;
     Body := bytes_of "{}";
     Headers := <["Content-Type" := ["application/json"]]>
                  (<["Vary" := ["Accept"; "Origin"]]> ∅) |}.

(** An entry with a header value that holds a comma. *)
Definition entry_commas : CacheEntry :=
  {| StatusCode := 200;
     Body := bytes_of "{}";
     Headers := <["Cache-Control" := ["no-cache, no-store"]]> ∅ |}.

(* ===================================================================== *)
(** * The disk backend over time *)
(* ===================================================================== *)

(** What happens to a disk cache: calls of its methods, and time passing. *)
Inductive op :=
| OpSet (key : string) (val : CacheEntry) (seed : list nat)
| OpGet (key : string)
| OpClear
| OpElapse (d : Duration).

(** The disk together with the wall clock. *)
Record Sys := mkSys { disk : FS; now : Z }.

(** One step.  A process that exits in [Set] leaves the disk as it is at
    that point. *)
Definition step (dc : DeskCache) (o : op) (s : Sys) : Sys :=
  match o with
  | OpSet key val seed => mkSys (final_state (DeskCache_Set dc key val seed (disk s))) (now s)
  | OpGet key => s
  | OpClear => mkSys (final_state (DeskCache_Clear dc (disk s))) (now s)
  | OpElapse d => mkSys (disk s) (now s + d)
  end.

Definition run (dc : DeskCache) (ops : list op) (s : Sys) : Sys :=
  fold_left (λ s o, step dc o s) ops s.

Definition is_clear (o : op) : bool :=
  match o with OpClear => true | _ => false end.

(** The demo disk after one entry was stored, and three damaged copies of
    it: the headers file deleted, the status file overwritten with text
    that is no number, a line without a comma put into the headers file. *)
Definition fs_stored : FS :=
  final_state (DeskCache_Set dc_demo "GET-/users" entry_demo [] fs_demo).

Definition users_file (f : string) : list string :=
  ["srv"; "cache"; "GET-"; "users"; f].

Definition fs_partial : FS :=
  set_tree (delete (users_file "headers") (tree fs_stored)) fs_stored.


Definition fs_bad_headers : FS :=
  write_file fs_stored (users_file "headers")
    ("garbage" +:+ NL +:+ "Vary,Accept" +:+ NL).

(** Regular files stay regular files (their content may change). *)
Definition files_kept (fs fs' : FS) : Prop :=
  cwd fs' = cwd fs ∧ ∀ q, is_Some (file_at fs q) → is_Some (file_at fs' q).

(** All three files of a key can be read. *)
Definition entry_readable (dc : DeskCache) (key : string) (fs : FS) : Prop :=
  ∀ f, f ∈ ["status"; "headers"; "body"] →
       ∃ c, ReadFile fs (Join [DirPath dc; key; f]) = inr c.

(** A day in the life of the demo cache: two hours pass, another entry is
    stored, a lookup, and a year passes. *)
Definition ops_demo : list op :=
  [OpElapse (2 * 3600 * 1000000000);
   OpSet "GET-/posts" entry_commas [];
   OpGet "GET-/users";
   OpElapse (365 * 24 * 3600 * 1000000000)].


(* ===================================================================== *)
(** * Properties of handlers *)
(* ===================================================================== *)

(** A property of the state that a computation keeps, however it ends. *)
Definition preserves {S A} (P : S → Prop) (m : M S A) : Prop :=
  ∀ s, P s → P (final_state (m s)).

(** A response writer whose header map and whose responses sent so far all
    show the [X-Cache] value [v]. *)
Definition carries (v : string) (rw : ResponseWriter) : Prop :=
  HGet (handlerHeader rw) "X-Cache" = v
  ∧ Forall (λ resp, HGet resp.2 "X-Cache" = v) (sent rw).

Section replies.
Context {Cache Store : Type}.
Variable cache_put : Cache → string → CacheEntry → M Store ().
Variable client : Client.

(** The reply from the cache, after the log line and the marker. *)
Definition hit_reply (val : option CacheEntry) (seed : list nat)
  : M (World Store) () :=
  match val with
  | None => panic
  | Some val =>
      on_w (WriteHeader (StatusCode val)) ;;;
      on_w (editHeader (λ h, copyHeaders h (Headers val) seed)) ;;;
      on_w (Write (Body val))
  end.

(** The reply from the origin, after the log line and the marker. *)
Definition miss_reply (cps : CachingProxyServer Cache) (r : Request)
    (seed : list nat) : M (World Store) () :=
  match NewRequest client (Method r) (Origin cps +:+ Path (Url r)) (ReqBody r) with
  | None => on_w (Error "error forwarding request" StatusInternalServerError)
  | Some upstreamReq =>
      resp <- client_Do client upstreamReq ;;
      match resp with
      | None => on_w (Error "error forwarding request" StatusInternalServerError)
      | Some resp =>
          match ReadAll (RespBody resp) with
          | None => on_w (Error "error forwarding request" StatusInternalServerError)
          | Some body =>
              on_w (WriteHeader (RespStatusCode resp)) ;;;
              on_w (editHeader (λ h, copyHeaders h (RespHeader resp) seed)) ;;;
              on_w (Write body) ;;;
              if bool_decide (Method r = "GET") then
                on_store (cache_put (Cache_ cps) (cacheKey r)
                            {| StatusCode := RespStatusCode resp;
                               Body := body;
                               Headers := RespHeader resp |})
              else ret ()
          end
      end
  end.

End replies.

(** The state in which the reply starts: the log line is written and the
    marker is set in the header map. *)
Definition marked {Store} (line : string) (v : string) (wd : World Store)
  : World Store :=
  mkWorld (store wd)
    (mkRW (HSet (handlerHeader (w wd)) "X-Cache" v) (interim (w wd))
          (wroteHeader (w wd)) (written (w wd)))
    (wire wd) (logs wd ++ [line]).

(** The request of the examples and the same request with a query string. *)
Definition req_demo : Request :=
  {| Method := "GET"; Url := {| Path := "/users"; RawQuery := "" |}; ReqBody := [] |}.

Definition req_post : Request :=
  {| Method := "POST"; Url := {| Path := "/users"; RawQuery := "" |};
     ReqBody := bytes_of "{}" |}.

(** An origin that answers every request with the demo entry. *)
Definition client_demo : Client :=
  {| NewRequest := λ m u b, Some {| up_method := m; up_url := u; up_body := b |};
     Do := λ _, Some {| RespStatusCode := 200;
                        RespHeader := Headers entry_demo;
                        RespBody := Some (Body entry_demo) |} |}.

Definition cps_demo : CachingProxyServer DeskCache :=
  {| Port := ":8080"; Origin := "http://dummyjson.com"; Cache_ := dc_demo |}.

Definition world (fs : FS) : World FS :=
  {| store := fs; w := freshRW; wire := []; logs := [] |}.

(* ===================================================================== *)
(** * Further notions for the disk backend *)
(* ===================================================================== *)

(** The three files of a key. *)
Definition entry_files (dc : DeskCache) (key : string) (fs : FS)
  : list (list string) :=
  [entry_file dc key "status" fs; entry_file dc key "headers" fs;
   entry_file dc key "body" fs].

(** Outside the locations [qs] every regular file is as it was. *)
Definition files_same_except (qs : list (list string)) (fs fs' : FS) : Prop :=
  cwd fs' = cwd fs ∧ ∀ q, q ∉ qs → file_at fs' q = file_at fs q.

(** Directories stay directories. *)
Definition dirs_kept (fs fs' : FS) : Prop :=
  cwd fs' = cwd fs ∧ ∀ q, lookup_node fs q = Some Dir → lookup_node fs' q = Some Dir.

(** What [Atoi] makes of the decimal text of a number: the number itself,
    or the bound of [int] it lies beyond. *)
Definition clamp_int (n : Z) : Z := Z.max MinInt (Z.min MaxInt n).


(* ===================================================================== *)
(** * Further notions for the handler *)
(* ===================================================================== *)

(** What the three upstream steps of the handler give for a request:
    the request that is built, and the status, headers and body of the
    answer when each step succeeds. *)
Definition upstream_request (client : Client) (origin : string) (r : Request)
  : option UpstreamRequest :=
  NewRequest client (Method r) (origin +:+ Path (Url r)) (ReqBody r).

Definition fetched (client : Client) (origin : string) (r : Request)
  : option (Z * Header * list byte) :=
  match upstream_request client origin r with
  | None => None
  | Some req =>
      match Do client req with
      | None => None
      | Some resp =>
          match ReadAll (RespBody resp) with
          | None => None
          | Some body => Some (RespStatusCode resp, RespHeader resp, body)
          end
      end
  end.

(** A status code [WriteHeader] takes as the status of the response: in
    100..999 and no interim code. *)
Definition final_code (code : Z) : bool :=
  (100 <=? code) && (code <=? 999)
  && negb ((100 <=? code) && (code <=? 199) && negb (code =? 101)).

(** The body that goes out with a status. *)
Definition body_sent (code : Z) (body : list byte) : list byte :=
  if bodyAllowedForStatus code then body else [].

(** The header map of a response that carries the marker and nothing
    else. *)
Definition marker_only (v : string) : Header := <["X-Cache" := [v]]> ∅.

(** The header map of the error reply. *)
Definition error_headers : Header :=
  <["X-Content-Type-Options" := ["nosniff"]]>
    (<["Content-Type" := ["text/plain; charset=utf-8"]]> (marker_only "MISS")).

(** A header map whose names are all in canonical form. *)
Definition canonical_names (h : Header) : Prop :=
  map_Forall (λ name (_ : list string), CanonicalMIMEHeaderKey name = name) h.

(** A world with a fresh response writer. *)
Definition fresh {Store} (wd : World Store) : Prop := w wd = freshRW.

(** The test the handler makes to serve a request from the cache. *)
Definition served_from_cache {Cache Store}
    (cache_get : Cache → string → Store → option CacheEntry * bool)
    (cps : CachingProxyServer Cache) (r : Request) (wd : World Store) : bool :=
  (cache_get (Cache_ cps) (cacheKey r) (store wd)).2
  && bool_decide (Method r = "GET").

(** The response writer after a reply with status [code] went out under
    the marker [v]: the headers copied from [hdr] are in the header map,
    not in the response. *)
Definition replied (v : string) (code : Z) (hdr : Header) (body : list byte)
    (seed : list nat) : ResponseWriter :=
  mkRW (copyHeaders (marker_only v) hdr seed) []
       (Some (code, marker_only v)) (body_sent code body).

(** The response writer after the error reply. *)
Definition replied_error : ResponseWriter :=
  mkRW error_headers [] (Some (StatusInternalServerError, error_headers))
       (bytes_of ("error forwarding request" +:+ NL)).

(** The demo disk with a status file that holds [0], and the cache entry in
    it. *)
Definition fs_zero_status : FS :=
  write_file fs_stored (users_file "status") "0".

(** An origin that cannot be reached. *)
Definition client_down : Client :=
  {| NewRequest := λ m u b, Some {| up_method := m; up_url := u; up_body := b |};
     Do := λ _, None |}.

(** The entry [Get] reads from the disk with the status file [0]. *)
Definition entry_zero : CacheEntry :=
  {| StatusCode := 0; Body := Body entry_demo; Headers := Headers entry_demo |}.

(** A header the headers file carries up to its commas: the name is in
    canonical form and free of delimiters, there is at least one value, and
    no value holds a newline. *)
Definition transportable_header (k : string) (vv : list string) : bool :=
  bool_decide (CanonicalMIMEHeaderKey k = k) && plain k
  && negb (bool_decide (vv = [])) && forallb (λ v, negb (contains v nl)) vv.

Definition transportable (h : Header) : Prop :=
  map_Forall (λ k vv, transportable_header k vv = true) h.

(** The values of a header, each cut at its commas. *)
Definition split_values (vv : list string) : list string :=
  flat_map (λ v, Split v comma) vv.

(** A request for a path below the path of the demo request. *)
Definition req_below : Request :=
  {| Method := "GET"; Url := {| Path := "/users/status"; RawQuery := "" |};
     ReqBody := [] |}.


(** The demo request with a slash at the end of its path. *)
Definition req_slash : Request :=
  {| Method := "GET"; Url := {| Path := "/users/"; RawQuery := "" |};
     ReqBody := [] |}.

(* ===================================================================== *)
(** * Facts about the library models *)

Example Split_ex : Split "a,b,,c" ","%char = ["a"; "b"; ""; "c"].
Proof. reflexivity. Qed.
Example Atoi_ex : Atoi "-200" = (-200, None) /\ Atoi "2x" = (0, Some ErrSyntax)
  /\ Atoi "+7" = (7, None) /\ Atoi "99999999999999999999" = (MaxInt, Some ErrRange).
Proof. repeat split. Qed.
Example Itoa_ex : Itoa 404 = "404" /\ Itoa (-1) = "-1" /\ Itoa 0 = "0".
Proof. repeat split. Qed.
Example canon_ex : CanonicalMIMEHeaderKey "content-TYPE" = "Content-Type"
  /\ CanonicalMIMEHeaderKey "x cache" = "x cache".
Proof. repeat split. Qed.
Example Clean_ex :
  Clean "a//b/./c/.." = "a/b" /\ Clean "/../a" = "/a" /\ Clean "../../x/" = "../../x"
  /\ Clean "a/.." = "." /\ Clean "/" = "/".
Proof. repeat split. Qed.
Example Join_ex :
  Join ["."; "GET-/users"; "status"] = "GET-/users/status"
  /\ Join [""; ""] = "" /\ Join ["/var/cache"; "GET-/"] = "/var/cache/GET-".
Proof. repeat split. Qed.

(* ===================================================================== *)

Section string_facts.

Lemma append_cons c (a b : string) : String c a +:+ b = String c (a +:+ b).
Proof. reflexivity. Qed.

Lemma append_nil_l (a : string) : "" +:+ a = a.
Proof. reflexivity. Qed.

Lemma append_nil_r (a : string) : a +:+ "" = a.
Proof. induction a as [|c a IH]; [done|]. by rewrite append_cons, IH. Qed.

Lemma append_assoc (a b c : string) : (a +:+ b) +:+ c = a +:+ (b +:+ c).
Proof.
  induction a as [|x a IH]; [done|]. by rewrite !append_cons, IH.
Qed.

Lemma Split_not_nil s sep : Split s sep ≠ [].
Proof.
  destruct s as [|c s]; simpl; [done|].
  case_decide; [done|]. by destruct (Split s sep).
Qed.

(** Splitting distributes over a separator between two strings. *)
Lemma Split_app_sep a b sep :
  Split (a +:+ String sep b) sep = Split a sep ++ Split b sep.
Proof.
  induction a as [|c a IH].
  - rewrite append_nil_l. simpl. by rewrite decide_True.
  - rewrite append_cons. simpl. rewrite IH. case_decide; [done|].
    pose proof (Split_not_nil a sep). by destruct (Split a sep).
Qed.

Lemma Split_free s sep : contains s sep = false → Split s sep = [s].
Proof.
  induction s as [|c s IH]; simpl; [done|].
  intros [Hc Hs]%orb_false_elim. apply bool_decide_eq_false in Hc.
  rewrite decide_False by done. by rewrite IH.
Qed.

(** A string that ends in the separator splits into the part before it
    and an empty last element. *)
Lemma Split_concat x xs sep :
  Forall (λ s, contains s sep = false) (x :: xs) →
  Split (String.concat (String sep "") (x :: xs)) sep = x :: xs.
Proof.
  revert x. induction xs as [|y ys IH]; intros x Hall.
  - simpl. apply Split_free. by inversion Hall.
  - change (String.concat (String sep "") (x :: y :: ys))
      with (x +:+ String sep "" +:+ String.concat (String sep "") (y :: ys)).
    rewrite append_cons, append_nil_l, Split_app_sep.
    inversion Hall; subst. rewrite Split_free by done.
    by rewrite IH.
Qed.

Lemma contains_app a b c : contains (a +:+ b) c = contains a c || contains b c.
Proof.
  induction a as [|x a IH]; [done|].
  rewrite append_cons. simpl. by rewrite IH, orb_assoc.
Qed.

End string_facts.

Section number_facts.

Lemma digits_step ch s n d :
  (Z.of_N (N_of_ascii ch) - 48) mod 256 = d → d <= 9 →
  digits (String ch s) n = digits s (n * 10 + d).
Proof.
  intros Hd Hle. cbn [digits]. cbv zeta. rewrite Hd.
  by destruct (Z.ltb_spec 9 d); [lia|].
Qed.

Ltac digit_step :=
  cbn [NilEmpty.string_of_uint];
  erewrite digits_step; [| vm_compute; reflexivity | lia].

Lemma digits_of_uint_acc d p :
  digits (NilEmpty.string_of_uint d) (Z.pos p) = Some (Z.pos (Pos.of_uint_acc d p)).
Proof.
  revert p. induction d; intros p; [done|..];
    digit_step; cbn [Pos.of_uint_acc]; rewrite <- IHd; f_equal; lia.
Qed.

Lemma digits_of_uint d :
  digits (NilEmpty.string_of_uint d) 0 = Some (Z.of_N (Pos.of_uint d)).
Proof.
  induction d; [done|..]; digit_step; cbn [Pos.of_uint];
    [exact IHd|..]; apply digits_of_uint_acc.
Qed.

Lemma digits_to_uint p :
  digits (NilEmpty.string_of_uint (Pos.to_uint p)) 0 = Some (Z.pos p).
Proof. by rewrite digits_of_uint, DecimalPos.Unsigned.of_to. Qed.

(** The decimal text of a positive number starts with a digit, not with a
    sign, and is not empty. *)
Lemma to_uint_head p :
  ∃ c s, NilEmpty.string_of_uint (Pos.to_uint p) = String c s
         ∧ c ≠ "-"%char ∧ c ≠ "+"%char.
Proof.
  pose proof (DecimalPos.Unsigned.to_uint_nonnil p) as Hnil.
  destruct (Pos.to_uint p); [done|..]; simpl; eauto.
Qed.

Lemma sign_body_digit c s :
  c ≠ "-"%char → c ≠ "+"%char → sign_body (String c s) = (false, String c s).
Proof. destruct c as [[] [] [] [] [] [] [] []]; done. Qed.

(** Text written by [Itoa] is read back by [Atoi] without error. *)
Lemma Atoi_Itoa n : is_int n → Atoi (Itoa n) = (n, None).
Proof.
  unfold is_int, MinInt, MaxInt, intSize. intros Hn.
  destruct n as [|p|p]; [done|..]; unfold Itoa; simpl Z.to_int;
    simpl NilEmpty.string_of_int; pose proof (digits_to_uint p) as Hd;
    destruct (to_uint_head p) as (c & s & Hs & Hm & Hp).
  - unfold Atoi. rewrite Hs in *. rewrite sign_body_digit, Hd by done.
    unfold intSize. simpl negb. rewrite andb_true_l, andb_false_l.
    destruct (2 ^ (64 - 1) <=? Z.pos p) eqn:E; [lia|done].
  - unfold Atoi. cbn [sign_body]. rewrite Hs. rewrite <- Hs, Hd.
    unfold intSize. simpl negb. rewrite andb_false_l, andb_true_l.
    destruct (2 ^ (64 - 1) <? Z.pos p) eqn:E; [lia|done].
Qed.




End number_facts.

Section range_facts.
Context {A : Type}.
Implicit Types l : list A.

(** Whatever the seed, [range] visits each entry exactly once. *)
Lemma shuffle_perm seed l : shuffle seed l ≡ₚ l.
Proof.
  revert l. induction seed as [|i seed IH]; intros l; simpl; [done|].
  destruct (l !! i) as [x|] eqn:Hi; [|done].
  rewrite IH. symmetry. by apply delete_Permutation.
Qed.

(** And every order is the order of some seed. *)
Lemma shuffle_complete l l' : l' ≡ₚ l → ∃ seed, shuffle seed l = l'.
Proof.
  revert l. induction l' as [|x l' IH]; intros l Hp.
  - exists []. simpl. by apply Permutation_nil_l in Hp.
  - assert (x ∈ l) as [i Hi]%list_elem_of_lookup.
    { rewrite <- Hp. apply list_elem_of_here. }
    destruct (IH (delete i l)) as [seed Hs].
    { apply (delete_Permutation _ _ _) in Hi. rewrite Hi in Hp.
      by apply Permutation_cons_inv in Hp. }
    exists (i :: seed). simpl. by rewrite Hi, Hs.
Qed.

End range_facts.

Lemma range_perm {V} seed (m : gmap string V) : range seed m ≡ₚ map_to_list m.
Proof. apply shuffle_perm. Qed.

Lemma range_NoDup {V} seed (m : gmap string V) : NoDup (range seed m).*1.
Proof. rewrite range_perm. apply NoDup_fst_map_to_list. Qed.

Lemma range_to_map {V} seed (m : gmap string V) : list_to_map (range seed m) = m.
Proof.
  rewrite <- (list_to_map_to_list m) at 2.
  apply list_to_map_proper; [apply range_NoDup | apply range_perm].
Qed.

Lemma elem_of_range {V} seed (m : gmap string V) k v :
  (k, v) ∈ range seed m ↔ m !! k = Some v.
Proof. rewrite range_perm. apply elem_of_map_to_list. Qed.

Section headers_facts.

Lemma concat_empty_cons x xs :
  String.concat "" (x :: xs) = x +:+ String.concat "" xs.
Proof. destruct xs; simpl; [by rewrite append_nil_r | done]. Qed.

Lemma values_loop vv acc :
  fold_left (λ acc v, acc +:+ COMMA +:+ v) vv acc
  = acc +:+ String.concat "" (map (λ v, COMMA +:+ v) vv).
Proof.
  revert acc. induction vv as [|v vv IH]; intros acc.
  - simpl. by rewrite append_nil_r.
  - cbn [fold_left map]. rewrite IH, concat_empty_cons.
    by rewrite !append_assoc.
Qed.

Lemma header_record_eq k vv :
  header_record (k, vv) = k +:+ String.concat "" (map (λ v, COMMA +:+ v) vv).
Proof.
  unfold header_record. simpl fst; simpl snd.
  revert k. induction vv as [|v vv IH]; intros k.
  - simpl. by rewrite append_nil_r.
  - change (String.concat COMMA (k :: v :: vv))
      with (k +:+ COMMA +:+ String.concat COMMA (v :: vv)).
    rewrite IH. cbn [map]. by rewrite concat_empty_cons, !append_assoc.
Qed.

Lemma headers_loop entries acc :
  fold_left
    (λ acc kvv,
       let acc := acc +:+ kvv.1 in
       let acc := fold_left (λ acc v, acc +:+ COMMA +:+ v) kvv.2 acc in
       acc +:+ NL)
    entries acc
  = acc +:+ headers_file entries.
Proof.
  unfold headers_file. revert acc.
  induction entries as [|[k vv] entries IH]; intros acc.
  - simpl. by rewrite append_nil_r.
  - cbn [fold_left map]. rewrite IH, concat_empty_cons.
    cbv zeta. simpl fst; simpl snd. rewrite values_loop.
    unfold header_line. rewrite header_record_eq.
    by rewrite !append_assoc.
Qed.

(** The loop of [storeEntryData] writes the file the format describes. *)
Lemma headersStr_format entries : headersStr entries = headers_file entries.
Proof. unfold headersStr. by rewrite headers_loop. Qed.

End headers_facts.

(* ===================================================================== *)
(** * Paths *)
(* ===================================================================== *)

Section path_facts.
Implicit Types stk cs : list string.

Lemma walk_app stk cs1 cs2 : walk stk (cs1 ++ cs2) = walk (walk stk cs1) cs2.
Proof.
  revert stk. induction cs1 as [|c cs1 IH]; intros stk; simpl; [done|].
  repeat case_decide; apply IH.
Qed.

Lemma walk_skipped stk c : skipped c → walk stk [c] = stk.
Proof. intros. simpl. by rewrite decide_True. Qed.

Lemma walk_up stk : walk stk [".."] = tail stk.
Proof. done. Qed.

Lemma walk_name stk c : ¬ skipped c → c ≠ ".." → walk stk [c] = c :: stk.
Proof. intros. simpl. by rewrite !decide_False. Qed.

(** The elements [filepath.Clean] keeps lead to the same place as the
    elements it was given. *)
Lemma walk_clean_elems rooted base stk cs :
  (rooted = true → base = []) →
  Forall (λ c, ¬ skipped c) stk →
  walk base (rev (clean_elems rooted stk cs)) = walk (walk base (rev stk)) cs.
Proof.
  intros Hroot. revert stk.
  induction cs as [|c cs IH]; intros stk Hstk; [done|].
  cbn [clean_elems walk].
  destruct (decide (skipped c)) as [|Hc]; [by apply IH|].
  destruct (decide (c = "..")) as [->|Hne].
  - destruct stk as [|x stk].
    + destruct rooted.
      * rewrite IH by done. simpl. by rewrite Hroot.
      * by rewrite IH by (repeat constructor; by intros [|]).
    + inversion Hstk as [|?? Hx Hstk']; subst.
      destruct (decide (x = "..")) as [->|Hx'].
      * rewrite IH by (constructor; [by intros [|] | done]).
        change (rev (".." :: ".." :: stk)) with (rev (".." :: stk) ++ [".."]).
        by rewrite walk_app, walk_up.
      * rewrite IH by done. simpl rev.
        by rewrite walk_app, walk_name.
  - rewrite IH by (by constructor). simpl rev.
    by rewrite walk_app, walk_name.
Qed.

Lemma Split_sep_free s sep : Forall (λ x, contains x sep = false) (Split s sep).
Proof.
  induction s as [|c s IH]; simpl; [by repeat constructor|].
  case_decide; [by constructor|].
  pose proof (Split_not_nil s sep).
  destruct (Split s sep) as [|x xs]; [done|].
  inversion IH; subst. constructor; [|done].
  simpl. rewrite bool_decide_eq_false_2 by done. done.
Qed.

Lemma clean_elems_Forall (P : string → Prop) rooted stk cs :
  P ".." → Forall P stk → Forall P cs → Forall P (clean_elems rooted stk cs).
Proof.
  intros Hdd. revert stk.
  induction cs as [|c cs IH]; intros stk Hstk Hcs; [done|].
  inversion Hcs; subst. cbn [clean_elems].
  repeat case_decide; try (apply IH; by try constructor).
  destruct stk as [|x stk].
  - destruct rooted; apply IH; by repeat constructor.
  - inversion Hstk; subst. case_decide; apply IH; by repeat constructor.
Qed.

Lemma clean_elems_kept rooted stk cs :
  Forall (λ c, ¬ skipped c) stk →
  Forall (λ c, ¬ skipped c) (clean_elems rooted stk cs).
Proof.
  revert stk. induction cs as [|c cs IH]; intros stk Hstk; [done|].
  cbn [clean_elems].
  destruct (decide (skipped c)); [by apply IH|].
  destruct (decide (c = "..")) as [->|].
  - destruct stk as [|x stk].
    + destruct rooted; apply IH; repeat constructor. by intros [|].
    + inversion Hstk; subst. case_decide; apply IH; by repeat constructor.
  - apply IH. by constructor.
Qed.

Lemma concat_sep_cons sep x y ys :
  String.concat sep (x :: y :: ys) = x +:+ sep +:+ String.concat sep (y :: ys).
Proof. done. Qed.

Lemma starts_with_app a b c : a ≠ "" → starts_with (a +:+ b) c = starts_with a c.
Proof. by destruct a. Qed.

Lemma starts_with_contains s c : starts_with s c = true → contains s c = true.
Proof. destruct s; [done|]. simpl. by intros ->. Qed.

Lemma concat_head sep x xs :
  x ≠ "" → ∃ c r, String.concat sep (x :: xs) = String c r
                  ∧ starts_with x c = true.
Proof.
  destruct x as [|c x]; [done|]. intros _.
  destruct xs; simpl.
  - exists c, x. by rewrite bool_decide_eq_true_2.
  - eexists c, _. by rewrite bool_decide_eq_true_2.
Qed.

End path_facts.

Section resolve_facts.
Variable fs : FS.
Abbreviation slash := ("/"%char).

Lemma walk_Split_concat base out :
  Forall (λ x, contains x slash = false) out →
  walk base (Split (String.concat "/" out) slash) = walk base out.
Proof.
  destruct out as [|x xs]; intros Hout; [done|].
  by rewrite (Split_concat x xs slash).
Qed.

Lemma clean_elems_slash_free rooted p :
  Forall (λ x, contains x slash = false)
         (rev (clean_elems rooted [] (Split p slash))).
Proof.
  apply Forall_rev, clean_elems_Forall; [done|constructor|].
  apply Split_sep_free.
Qed.

(** Cleaning a path does not change what it denotes. *)
Lemma resolve_Clean p : resolve fs (Clean p) = resolve fs p.
Proof.
  unfold resolve, Clean. f_equal.
  pose proof (clean_elems_slash_free (starts_with p slash) p) as Hfree.
  pose proof (clean_elems_kept (starts_with p slash) [] (Split p slash)
                (Forall_nil_2 _)) as Hkept.
  apply Forall_rev in Hkept.
  assert (∀ base, (starts_with p slash = true → base = []) →
            walk base (rev (clean_elems (starts_with p slash) [] (Split p slash)))
            = walk base (Split p slash)) as Hwalk.
  { intros base Hb. by rewrite walk_clean_elems. }
  destruct (starts_with p slash) eqn:Hrooted.
  - change ("/" +:+ ?x) with (String slash x). cbn [starts_with].
    rewrite bool_decide_eq_true_2 by done.
    cbn [Split]. rewrite decide_True by done.
    cbn [walk]. rewrite decide_True by (by left).
    rewrite walk_Split_concat by done. by apply Hwalk.
  - destruct (rev (clean_elems false [] (Split p slash))) as [|x xs] eqn:Hout.
    + simpl. by rewrite <- Hwalk.
    + inversion Hfree as [|?? Hx _]; inversion Hkept as [|?? Hx' _]; subst.
      destruct (concat_head "/" x xs) as (c & r & Hc & Hst).
      { intros ->. apply Hx'. by left. }
      assert (starts_with (String.concat "/" (x :: xs)) slash = false) as ->.
      { rewrite Hc. simpl. apply bool_decide_eq_false_2. intros ->.
        apply starts_with_contains in Hst. congruence. }
      rewrite walk_Split_concat by done. by apply Hwalk.
Qed.

Lemma Clean_not_empty p : Clean p ≠ "".
Proof.
  unfold Clean.
  pose proof (clean_elems_kept (starts_with p slash) [] (Split p slash)
                (Forall_nil_2 _)) as Hkept.
  apply Forall_rev in Hkept.
  destruct (starts_with p slash); [done|].
  destruct (rev _) as [|x xs]; [done|].
  inversion Hkept as [|?? Hx _]; subst.
  destruct (concat_head "/" x xs) as (c & r & -> & _); [|done].
  intros ->. apply Hx. by left.
Qed.

(** A further element appended to a path, seen from where the path leads. *)
Lemma resolve_sub a b :
  a ≠ "" →
  resolve fs (a +:+ "/" +:+ b) = rev (walk (rev (resolve fs a)) (Split b slash)).
Proof.
  intros Ha. unfold resolve. rewrite starts_with_app by done.
  change ("/" +:+ b) with (String slash b).
  by rewrite Split_app_sep, walk_app, rev_involutive.
Qed.

Lemma resolve_name a f :
  a ≠ "" → contains f slash = false → ¬ skipped f → f ≠ ".." →
  resolve fs (a +:+ "/" +:+ f) = resolve fs a ++ [f].
Proof.
  intros. rewrite resolve_sub, Split_free by done.
  rewrite walk_name by done. simpl. by rewrite rev_involutive.
Qed.

Lemma Join_dir d k :
  joined d k ≠ "" → Join [d; k] = Clean (joined d k).
Proof.
  unfold joined. cbn [Join]. intros Hne.
  destruct (decide (d = "")); [|done].
  rewrite decide_False by done. done.
Qed.

Lemma Join_file d k f :
  joined d k ≠ "" → Join [d; k; f] = Clean (joined d k +:+ "/" +:+ f).
Proof.
  unfold joined. cbn [Join]. intros Hne.
  destruct (decide (d = "")).
  - rewrite decide_False by done. done.
  - by rewrite concat_sep_cons, concat_sep_cons, append_assoc, append_assoc.
Qed.

Lemma Join_dir_empty d k : joined d k = "" → Join [d; k] = "".
Proof.
  unfold joined. cbn [Join]. destruct (decide (d = "")); [|by destruct d].
  intros ->. done.
Qed.

(** The place of a file of an entry, as [Get] names it. *)
Lemma resolve_Join_file d k f :
  joined d k ≠ "" → file_name f →
  resolve fs (Join [d; k; f]) = resolve fs (Join [d; k]) ++ [f].
Proof.
  intros Hne (? & ? & ?).
  rewrite Join_file, Join_dir, !resolve_Clean by done.
  by apply resolve_name.
Qed.

(** The same place, as [storeEntryData] names it from the entry
    directory. *)
Lemma resolve_Join_entry e f :
  e ≠ "" → file_name f →
  resolve fs (Join [e; f]) = resolve fs e ++ [f].
Proof.
  intros He (? & ? & ?). cbn [Join]. rewrite decide_False by done.
  rewrite resolve_Clean. by apply resolve_name.
Qed.

Lemma Join_file_not_empty d k f : f ≠ "" → Join [d; k; f] ≠ "".
Proof.
  intros Hf. cbn [Join]. repeat case_decide; try apply Clean_not_empty. done.
Qed.

End resolve_facts.

(* ===================================================================== *)
(** * File operations *)
(* ===================================================================== *)

Section fs_facts.
Implicit Types fs : FS.
Implicit Types q : list string.

Lemma resolve_cwd fs fs' p : cwd fs' = cwd fs → resolve fs' p = resolve fs p.
Proof. unfold resolve. by intros ->. Qed.

Lemma resolve_set_tree t fs p : resolve (set_tree t fs) p = resolve fs p.
Proof. done. Qed.

Lemma only_dirs_added_refl fs : only_dirs_added fs fs.
Proof. split; [done|]. by left. Qed.

Lemma mkdir_all_spec fs done rest fs' e :
  mkdir_all fs done rest = (fs', e) → only_dirs_added fs fs'.
Proof.
  revert fs done. induction rest as [|c rest IH]; intros fs done.
  - intros [= <- <-]. apply only_dirs_added_refl.
  - cbn [mkdir_all]. cbv zeta.
    destruct (lookup_node fs (done ++ [c])) as [[]|] eqn:Hl.
    + intros [= <- <-]. apply only_dirs_added_refl.
    + apply IH.
    + intros [Hc Ht]%IH. split; [done|]. intros q.
      destruct (Ht q) as [Hq|[Hq1 Hq2]]; simpl in *.
      * destruct (decide (q = done ++ [c])) as [->|].
        -- right. rewrite Hq, lookup_insert_eq. split; [|done].
           by destruct done.
        -- left. by rewrite Hq, lookup_insert_ne.
      * right. split; [|done].
        destruct (decide (q = done ++ [c])) as [->|].
        -- by destruct done.
        -- by rewrite lookup_insert_ne in Hq1.
Qed.

Lemma MkdirAll_spec p fs fs' e :
  MkdirAll p fs = (fs', e) → only_dirs_added fs fs'.
Proof.
  unfold MkdirAll. destruct (Stat fs p) as [|[[]]].
  - case_decide; [|apply mkdir_all_spec].
    intros [= <- <-]. apply only_dirs_added_refl.
  - intros [= <- <-]. apply only_dirs_added_refl.
  - intros [= <- <-]. apply only_dirs_added_refl.
Qed.

Lemma MkdirAll_empty fs : MkdirAll "" fs = (fs, Some ENOENT).
Proof. done. Qed.

Lemma only_dirs_added_file fs fs' q c :
  only_dirs_added fs fs' →
  tree fs !! q = Some (File c) → tree fs' !! q = Some (File c).
Proof. intros [_ H] Hq. destruct (H q) as [->|[? ?]]; congruence. Qed.

Lemma only_dirs_added_file_at fs fs' q :
  only_dirs_added fs fs' → file_at fs' q = file_at fs q.
Proof.
  intros [_ H]. unfold file_at.
  destruct (H q) as [->|[-> ->]]; done.
Qed.

Lemma createAndWriteFile_spec path content fs :
  (createAndWriteFile path content fs
     = Ok None (write_file fs (resolve fs path) content)
   ∧ path ≠ "" ∧ resolve fs path ≠ [])
  ∨ (∃ err, createAndWriteFile path content fs = Ok (Some err) fs).
Proof.
  unfold createAndWriteFile, bind, call, Create.
  destruct (decide (path = "")) as [->|Hp]; [right; eauto|].
  destruct (lookup_node fs (removelast (resolve fs path))) as [[]|];
    [right; eauto| |right; eauto].
  destruct (resolve fs path) as [|x q'] eqn:Hq.
  { simpl. right; eauto. }
  set (q := x :: q') in *.
  assert (∀ t, WriteString q content (set_tree (<[q := File []]> t) fs)
               = (write_file (set_tree t fs) q content, None)) as Hw.
  { intros t. unfold WriteString, write_file. simpl.
    by rewrite lookup_insert_eq, insert_insert_eq. }
  destruct (lookup_node fs q) as [[]|] eqn:Hl.
  - left. rewrite Hw. by destruct fs.
  - right; eauto.
  - left. rewrite Hw. by destruct fs.
Qed.

Lemma ReadFile_file fs p q c :
  p ≠ "" → resolve fs p = q → q ≠ [] → tree fs !! q = Some (File c) →
  ReadFile fs p = inr c.
Proof.
  intros Hp <- Hq Hc. unfold ReadFile. rewrite decide_False by done.
  destruct (resolve fs p); [done|]. simpl. by rewrite Hc.
Qed.

Lemma ReadFile_inr fs p c :
  ReadFile fs p = inr c →
  p ≠ "" ∧ resolve fs p ≠ [] ∧ tree fs !! resolve fs p = Some (File c).
Proof.
  unfold ReadFile. case_decide; [done|].
  destruct (resolve fs p) as [|x q] eqn:Hq; [done|]. simpl.
  destruct (tree fs !! (x :: q)) as [[]|]; [|done..].
  by intros [= ->].
Qed.

End fs_facts.

Section store_facts.
Implicit Types fs : FS.

Lemma file_name_status : file_name "status".
Proof. repeat split; [by intros [|] | done]. Qed.
Lemma file_name_headers : file_name "headers".
Proof. repeat split; [by intros [|] | done]. Qed.
Lemma file_name_body : file_name "body".
Proof. repeat split; [by intros [|] | done]. Qed.

Lemma resolve_write_file fs q c p :
  resolve (write_file fs q c) p = resolve fs p.
Proof. done. Qed.

Lemma storeEntryData_ok entryDir ce seed fs fs' :
  entryDir ≠ "" →
  storeEntryData entryDir ce seed fs = Ok None fs' →
  fs' = stored fs (resolve fs entryDir) ce seed.
Proof.
  intros He. unfold storeEntryData, bind.
  destruct (createAndWriteFile_spec (Join [entryDir; "status"])
              (Itoa (StatusCode ce)) fs) as [(-> & _)|[err ->]];
    [|by intros [=]].
  rewrite (resolve_Join_entry _ _ _ He file_name_status).
  set (fs1 := write_file fs _ _).
  destruct (createAndWriteFile_spec (Join [entryDir; "headers"])
              (headersStr (range seed (Headers ce))) fs1)
    as [(-> & _)|[err ->]]; [|by intros [=]].
  rewrite (resolve_Join_entry _ _ _ He file_name_headers).
  set (fs2 := write_file fs1 _ _).
  destruct (createAndWriteFile_spec (Join [entryDir; "body"])
              (string_of (Body ce)) fs2) as [(-> & _)|[err ->]];
    [|by intros [=]].
  rewrite (resolve_Join_entry _ _ _ He file_name_body).
  by intros [= <-].
Qed.

(** What the disk holds after [Set] has returned no error: the directories
    [MkdirAll] made, and the three files. *)
Lemma DeskCache_Set_ok dc key val seed fs fs' :
  DeskCache_Set dc key val seed fs = Ok None fs' →
  joined (DirPath dc) key ≠ "" ∧
  ∃ fs1, only_dirs_added fs fs1 ∧ fs' = stored fs1 (entry_dir dc key fs) val seed.
Proof.
  unfold DeskCache_Set, bind, call.
  destruct (MkdirAll (Join [DirPath dc; key]) fs) as [fs1 [e|]] eqn:Hmk;
    [done|].
  assert (joined (DirPath dc) key ≠ "") as Hj.
  { intros Hj. rewrite (Join_dir_empty _ _ Hj), MkdirAll_empty in Hmk. done. }
  intros Hst. split; [done|]. exists fs1.
  pose proof (MkdirAll_spec _ _ _ _ Hmk) as Hdirs. split; [done|].
  apply storeEntryData_ok in Hst.
  - rewrite Hst. unfold entry_dir. f_equal. apply resolve_cwd, Hdirs.
  - rewrite Join_dir by done. apply Clean_not_empty.
Qed.

Lemma list_app_singleton_ne (dir : list string) f g : f ≠ g → dir ++ [f] ≠ dir ++ [g].
Proof. intros Hne Heq. apply app_inv_head in Heq. congruence. Qed.

Lemma list_app_singleton_not_nil (dir : list string) f : dir ++ [f] ≠ [].
Proof. by destruct dir. Qed.

Lemma stored_status fs dir ce seed :
  tree (stored fs dir ce seed) !! (dir ++ ["status"])
  = Some (File (bytes_of (Itoa (StatusCode ce)))).
Proof.
  unfold stored, write_file. simpl.
  rewrite !lookup_insert_ne by (by apply list_app_singleton_ne).
  by rewrite lookup_insert_eq.
Qed.

Lemma stored_headers fs dir ce seed :
  tree (stored fs dir ce seed) !! (dir ++ ["headers"])
  = Some (File (bytes_of (headersStr (range seed (Headers ce))))).
Proof.
  unfold stored, write_file. simpl.
  rewrite lookup_insert_ne by (by apply list_app_singleton_ne).
  by rewrite lookup_insert_eq.
Qed.

Lemma stored_body fs dir ce seed :
  tree (stored fs dir ce seed) !! (dir ++ ["body"]) = Some (File (Body ce)).
Proof.
  unfold stored, write_file. simpl. rewrite lookup_insert_eq.
  unfold bytes_of, string_of. by rewrite list_byte_of_string_of_list_byte.
Qed.

Lemma stored_other fs dir ce seed q :
  q ≠ dir ++ ["status"] → q ≠ dir ++ ["headers"] → q ≠ dir ++ ["body"] →
  tree (stored fs dir ce seed) !! q = tree fs !! q.
Proof.
  intros. unfold stored, write_file. simpl.
  by rewrite !lookup_insert_ne.
Qed.

(** How [Get] reads an entry: the three files by their place. *)
Lemma DeskCache_Get_files dc key fs :
  joined (DirPath dc) key ≠ "" →
  DeskCache_Get dc key fs =
    match file_at fs (entry_file dc key "status" fs),
          file_at fs (entry_file dc key "headers" fs),
          file_at fs (entry_file dc key "body" fs) with
    | Some s, Some h, Some b =>
        (Some {| StatusCode := (Atoi (string_of s)).1; Body := b;
                 Headers := parseHeaders (string_of h) |}, true)
    | _, _, _ => (None, false)
    end.
Proof.
  intros Hj. unfold DeskCache_Get, entry_file, entry_dir.
  assert (∀ f, file_name f → f ≠ "" →
            ReadFile fs (Join [DirPath dc; key; f])
            = match file_at fs (resolve fs (Join [DirPath dc; key]) ++ [f]) with
              | Some c => inr c
              | None => match ReadFile fs (Join [DirPath dc; key; f]) with
                        | inl e => inl e
                        | inr _ => inl ENOENT
                        end
              end) as Hread.
  { intros f Hf Hne. unfold ReadFile, file_at.
    rewrite decide_False by (by apply Join_file_not_empty).
    rewrite resolve_Join_file by done.
    destruct (resolve fs (Join [DirPath dc; key]) ++ [f]) as [|x q] eqn:Hq.
    { by apply list_app_singleton_not_nil in Hq. }
    simpl. by destruct (tree fs !! (x :: q)) as [[]|]. }
  rewrite (Hread "status" file_name_status) by done.
  rewrite (Hread "headers" file_name_headers) by done.
  rewrite (Hread "body" file_name_body) by done.
  destruct (file_at fs (_ ++ ["status"])); [|by destruct (ReadFile _ _)].
  destruct (file_at fs (_ ++ ["headers"])); [|by destruct (ReadFile _ _)].
  destruct (file_at fs (_ ++ ["body"])); [done|by destruct (ReadFile _ _)].
Qed.

End store_facts.

(* ===================================================================== *)
(** * Reading the headers file *)
(* ===================================================================== *)

Section parse_facts.
Implicit Types h : Header.

Lemma parse_loop lines h :
  fold_left
    (λ h line,
       let header := Split line comma in
       let key := hd "" header in
       fold_left (λ h val, Add h key val) (tail header) h)
    lines h
  = fold_left add_record (map record_of_line lines) h.
Proof.
  revert h. induction lines as [|l lines IH]; intros h; [done|].
  cbn [fold_left map]. by rewrite IH.
Qed.

(** [Get] reads the headers file record by record. *)
Lemma parseHeaders_records cont :
  parseHeaders cont
  = fold_left add_record (map record_of_line (Split cont nl)) ∅.
Proof. apply parse_loop. Qed.

(** A line without a comma adds nothing. *)
Lemma add_record_malformed h line :
  well_formed_line line = false → add_record h (record_of_line line) = h.
Proof.
  unfold well_formed_line, record_of_line. intros Hc.
  by rewrite Split_free.
Qed.

Lemma add_records_filter lines h :
  fold_left add_record (map record_of_line lines) h
  = fold_left add_record
      (map record_of_line (List.filter well_formed_line lines)) h.
Proof.
  revert h. induction lines as [|l lines IH]; intros h; [done|].
  cbn [map fold_left List.filter].
  destruct (well_formed_line l) eqn:Hl.
  - cbn [map fold_left]. apply IH.
  - rewrite add_record_malformed by done. apply IH.
Qed.

(** All the values of a record go to the canonical form of its name. *)
Lemma add_record_canonical h k vv :
  CanonicalMIMEHeaderKey k = k → vv ≠ [] →
  add_record h (k, vv) = <[k := values h k ++ vv]> h.
Proof.
  unfold add_record. simpl. intros Hk.
  revert h. induction vv as [|v vv IH]; intros h Hvv; [done|].
  cbn [fold_left]. unfold Add at 2. rewrite Hk.
  destruct vv as [|v' vv']; [done|].
  rewrite IH by done. unfold values at 1. rewrite lookup_insert_eq. simpl.
  by rewrite insert_insert_eq, <- app_assoc.
Qed.

Lemma storable_header_spec k vv :
  storable_header k vv = true →
  CanonicalMIMEHeaderKey k = k ∧ vv ≠ []
  ∧ Forall (λ s, contains s comma = false) (k :: vv)
  ∧ Forall (λ s, contains s nl = false) (k :: vv).
Proof.
  unfold storable_header, plain.
  rewrite !andb_true_iff, !negb_true_iff, bool_decide_eq_true,
    bool_decide_eq_false, forallb_forall.
  intros (((Hk & Hkc & Hkn) & Hvv) & Hall). repeat split; [done..| |].
  - constructor; [done|]. apply Forall_forall. intros v Hv.
    apply list_elem_of_In, Hall in Hv.
    rewrite andb_true_iff, !negb_true_iff in Hv. tauto.
  - constructor; [done|]. apply Forall_forall. intros v Hv.
    apply list_elem_of_In, Hall in Hv.
    rewrite andb_true_iff, !negb_true_iff in Hv. tauto.
Qed.

Lemma contains_concat sep c x xs :
  contains sep c = false →
  Forall (λ s, contains s c = false) (x :: xs) →
  contains (String.concat sep (x :: xs)) c = false.
Proof.
  intros Hsep. revert x. induction xs as [|y ys IH]; intros x Hall.
  - by inversion Hall.
  - rewrite concat_sep_cons, !contains_app. inversion Hall; subst.
    rewrite IH by done. by rewrite Hsep, H1.
Qed.

Lemma Split_lines ls :
  Forall (λ l, contains l nl = false) ls →
  Split (String.concat "" (map (λ l, l +:+ NL) ls)) nl = ls ++ [""].
Proof.
  induction 1 as [|l ls Hl Hls IH]; [done|].
  cbn [map]. rewrite concat_empty_cons, append_assoc.
  change (NL +:+ ?x) with (String nl x).
  by rewrite Split_app_sep, Split_free, IH.
Qed.

Lemma headers_file_lines entries :
  headers_file entries
  = String.concat "" (map (λ l, l +:+ NL) (map header_record entries)).
Proof. unfold headers_file. by rewrite map_map. Qed.

Lemma record_of_header_record k vv :
  Forall (λ s, contains s comma = false) (k :: vv) →
  record_of_line (header_record (k, vv)) = (k, vv).
Proof.
  intros Hall. unfold record_of_line, header_record, COMMA. cbn [fst snd].
  by rewrite (Split_concat k vv comma).
Qed.

Lemma add_records_storable entries h :
  NoDup entries.*1 →
  Forall (λ kvv, storable_header kvv.1 kvv.2 = true) entries →
  (∀ k, k ∈ entries.*1 → h !! k = None) →
  fold_left add_record entries h = list_to_map entries ∪ h.
Proof.
  revert h. induction entries as [|[k vv] entries IH]; intros h Hnd Hst Hh.
  - simpl. by rewrite (left_id_L ∅ (∪)).
  - cbn [fold_left]. inversion Hnd as [|?? Hk Hnd']; subst.
    inversion Hst as [|?? Hkv Hst']; subst.
    apply storable_header_spec in Hkv as (Hcanon & Hvv & _ & _).
    rewrite add_record_canonical by done.
    unfold values. rewrite Hh by (simpl; left). simpl.
    rewrite IH; [|done..|].
    + cbn [list_to_map foldr]. simpl.
      rewrite <- insert_union_l. symmetry. apply insert_union_r.
      by apply not_elem_of_list_to_map_1.
    + intros k' Hk'. rewrite lookup_insert_ne by (intros ->; done).
      apply Hh. simpl. by right.
Qed.

(** Reading back the headers file of storable headers gives the headers. *)
Lemma parseHeaders_headers_file entries :
  NoDup entries.*1 →
  Forall (λ kvv, storable_header kvv.1 kvv.2 = true) entries →
  parseHeaders (headers_file entries) = list_to_map entries.
Proof.
  intros Hnd Hst.
  rewrite parseHeaders_records, headers_file_lines, Split_lines.
  - rewrite map_app, fold_left_app. cbn [map fold_left].
    rewrite add_record_malformed by done.
    rewrite map_map.
    rewrite (map_ext_Forall _ id).
    + rewrite map_id, add_records_storable; [|done..].
      by rewrite (right_id_L ∅ (∪)).
    + eapply Forall_impl; [exact Hst|]. intros [k vv] Hkv.
      apply storable_header_spec in Hkv as (_ & _ & Hc & _).
      by apply record_of_header_record.
  - apply Forall_map. eapply Forall_impl; [exact Hst|].
    intros [k vv] Hkv.
    apply storable_header_spec in Hkv as (_ & _ & _ & Hn).
    by apply contains_concat.
Qed.

Lemma parseHeaders_range seed (m : Header) :
  storable m → parseHeaders (headersStr (range seed m)) = m.
Proof.
  intros Hm. rewrite headersStr_format, parseHeaders_headers_file.
  - apply range_to_map.
  - apply range_NoDup.
  - apply Forall_forall. intros [k vv] Hin.
    apply elem_of_range in Hin. by apply Hm in Hin.
Qed.

End parse_facts.

(* ===================================================================== *)
(** * The disk backend: what the design document says of it *)
(* ===================================================================== *)

Section disk_backend.
Implicit Types (dc : DeskCache) (fs : FS) (ce : CacheEntry).

Lemma entry_dir_cwd dc key fs fs' :
  cwd fs' = cwd fs → entry_dir dc key fs' = entry_dir dc key fs.
Proof. intros. by apply resolve_cwd. Qed.

Lemma file_at_stored_status fs dir ce seed :
  file_at (stored fs dir ce seed) (dir ++ ["status"])
  = Some (bytes_of (Itoa (StatusCode ce))).
Proof. unfold file_at. by rewrite stored_status. Qed.

Lemma file_at_stored_headers fs dir ce seed :
  file_at (stored fs dir ce seed) (dir ++ ["headers"])
  = Some (bytes_of (headersStr (range seed (Headers ce)))).
Proof. unfold file_at. by rewrite stored_headers. Qed.

Lemma file_at_stored_body fs dir ce seed :
  file_at (stored fs dir ce seed) (dir ++ ["body"]) = Some (Body ce).
Proof. unfold file_at. by rewrite stored_body. Qed.

Lemma string_of_bytes_of s : string_of (bytes_of s) = s.
Proof. apply string_of_list_byte_of_string. Qed.

(** What [Get] returns right after a [Set] that returned no error: the
    status code as [Atoi] reads it back and the headers as the parser
    rebuilds them. *)
Lemma Get_after_Set dc key ce seed fs fs' :
  DeskCache_Set dc key ce seed fs = Ok None fs' →
  DeskCache_Get dc key fs' =
    (Some {| StatusCode := (Atoi (Itoa (StatusCode ce))).1;
             Body := Body ce;
             Headers := parseHeaders (headersStr (range seed (Headers ce))) |},
     true).
Proof.
  intros (Hj & fs1 & [Hcwd _] & ->)%DeskCache_Set_ok.
  rewrite DeskCache_Get_files by done. unfold entry_file.
  rewrite (entry_dir_cwd dc key (stored fs1 (entry_dir dc key fs) ce seed) fs)
    by done.
  rewrite file_at_stored_status, file_at_stored_headers, file_at_stored_body.
  by rewrite !string_of_bytes_of.
Qed.

End disk_backend.

(** C1, as amended.  Round trip through the disk backend: when [Set]
    returns without error for an entry whose headers the format can carry
    (every name in canonical form, names and values free of commas and
    newlines, at least one value per name), the [Get] that follows at once
    finds the entry and returns it unchanged: same status code, same body,
    same headers with the values of each name in their order.  This holds
    for every order in which the map of headers is iterated. *)
Theorem disk_round_trip dc key ce seed fs fs' :
  is_int (StatusCode ce) →
  storable (Headers ce) →
  DeskCache_Set dc key ce seed fs = Ok None fs' →
  DeskCache_Get dc key fs' = (Some ce, true).
Proof.
  intros Hint Hst Hset. rewrite (Get_after_Set _ _ _ _ _ _ Hset).
  rewrite Atoi_Itoa, parseHeaders_range by done. by destruct ce.
Qed.

Lemma storable_entry_demo : storable (Headers entry_demo).
Proof.
  unfold storable, entry_demo. simpl.
  apply map_Forall_insert_2; [reflexivity|].
  apply map_Forall_insert_2; [reflexivity|].
  apply map_Forall_empty.
Defined.

Lemma disk_round_trip_witness :
  let fs' := final_state (DeskCache_Set dc_demo "GET-/users" entry_demo [1%nat] fs_demo) in
  is_int (StatusCode entry_demo)
  ∧ storable (Headers entry_demo)
  ∧ DeskCache_Set dc_demo "GET-/users" entry_demo [1%nat] fs_demo = Ok None fs'
  ∧ DeskCache_Get dc_demo "GET-/users" fs' = (Some entry_demo, true).
Proof.
  assert (is_int (StatusCode entry_demo)) as Hint.
  { unfold is_int. vm_compute. split; discriminate. }
  assert (DeskCache_Set dc_demo "GET-/users" entry_demo [1%nat] fs_demo
          = Ok None (final_state (DeskCache_Set dc_demo "GET-/users" entry_demo
                                    [1%nat] fs_demo))) as Hset.
  { vm_compute. reflexivity. }
  cbv zeta. split; [exact Hint|]. split; [exact storable_entry_demo|].
  split; [exact Hset|].
  exact (disk_round_trip dc_demo "GET-/users" entry_demo [1%nat] fs_demo _
           Hint storable_entry_demo Hset).
Defined.

(** C1 as stated fails: a [Set] of an entry whose header value holds a
    comma returns no error, and the [Get] that follows finds an entry with
    other headers, the value being split in two. *)
Lemma disk_round_trip_counterexample :
  let r := DeskCache_Set dc_demo "GET-/users" entry_commas [] fs_demo in
  returned r = Some None
  ∧ is_int (StatusCode entry_commas)
  ∧ (∃ ce', DeskCache_Get dc_demo "GET-/users" (final_state r) = (Some ce', true)
            ∧ Headers entry_commas !! "Cache-Control" = Some ["no-cache, no-store"]
            ∧ Headers ce' !! "Cache-Control" = Some ["no-cache"; " no-store"])
  ∧ DeskCache_Get dc_demo "GET-/users" (final_state r) ≠ (Some entry_commas, true).
Proof.
  assert (DeskCache_Set dc_demo "GET-/users" entry_commas [] fs_demo
          = Ok None (final_state (DeskCache_Set dc_demo "GET-/users" entry_commas [] fs_demo)))
    as Hset by (vm_compute; reflexivity).
  pose proof (Get_after_Set _ _ _ _ _ _ Hset) as Hget.
  cbv zeta. split; [|split; [|split]].
  - vm_compute. reflexivity.
  - vm_compute. split; discriminate.
  - eexists. split; [exact Hget|]. split; vm_compute; reflexivity.
  - rewrite Hget. intros Heq.
    apply (f_equal (λ r : option CacheEntry * bool,
                      match r.1 with
                      | Some ce' => Headers ce' !! "Cache-Control"
                      | None => None
                      end)) in Heq.
    vm_compute in Heq. discriminate.
Qed.

(** C2.  Partial-write miss: when any one of the three files of a key
    cannot be read, [Get] returns [(nil, false)]: no entry, no error. *)
Theorem disk_partial_miss dc key fs f e :
  f ∈ ["status"; "headers"; "body"] →
  ReadFile fs (Join [DirPath dc; key; f]) = inl e →
  DeskCache_Get dc key fs = (None, false).
Proof.
  intros Hf Hread. unfold DeskCache_Get.
  repeat (apply elem_of_cons in Hf as [->|Hf]); [..|by apply elem_of_nil in Hf].
  - by rewrite Hread.
  - rewrite Hread. by destruct (ReadFile fs (Join [_; _; "status"])).
  - rewrite Hread. destruct (ReadFile fs (Join [_; _; "status"])); [done|].
    by destruct (ReadFile fs (Join [_; _; "headers"])).
Qed.

Lemma disk_partial_miss_witness :
  file_at fs_partial (users_file "status") = Some (bytes_of "200")
  ∧ file_at fs_partial (users_file "body") = Some (bytes_of "{}")
  ∧ "headers" ∈ ["status"; "headers"; "body"]
  ∧ ReadFile fs_partial (Join [DirPath dc_demo; "GET-/users"; "headers"]) = inl ENOENT
  ∧ DeskCache_Get dc_demo "GET-/users" fs_partial = (None, false).
Proof.
  assert ("headers" ∈ ["status"; "headers"; "body"]) as Hin.
  { apply elem_of_cons. right. apply elem_of_cons. by left. }
  assert (ReadFile fs_partial (Join [DirPath dc_demo; "GET-/users"; "headers"])
          = inl ENOENT) as Hread by (vm_compute; reflexivity).
  split; [vm_compute; reflexivity|]. split; [vm_compute; reflexivity|].
  split; [exact Hin|]. split; [exact Hread|].
  exact (disk_partial_miss dc_demo "GET-/users" fs_partial "headers" ENOENT
           Hin Hread).
Defined.

(** C4.  Disk format: a [Set] that returns no error has written three
    files in the directory named by the key, [status] with the decimal text
    of the status code, [headers] with one line [name,value1,value2,...]
    per header name, each closed by a newline, and [body] with the body
    bytes; apart from the directories on the way, nothing else on the disk
    has changed. *)
Theorem disk_format dc key ce seed fs fs' :
  DeskCache_Set dc key ce seed fs = Ok None fs' →
  ReadFile fs' (Join [DirPath dc; key; "status"])
    = inr (bytes_of (Itoa (StatusCode ce)))
  ∧ (∃ entries,
       entries ≡ₚ map_to_list (Headers ce)
       ∧ ReadFile fs' (Join [DirPath dc; key; "headers"])
         = inr (bytes_of (headers_file entries)))
  ∧ ReadFile fs' (Join [DirPath dc; key; "body"]) = inr (Body ce)
  ∧ (∀ q, q ∉ [entry_file dc key "status" fs; entry_file dc key "headers" fs;
                entry_file dc key "body" fs] →
          tree fs' !! q = tree fs !! q
          ∨ (tree fs !! q = None ∧ tree fs' !! q = Some Dir)).
Proof.
  intros (Hj & fs1 & [Hcwd Hdirs] & ->)%DeskCache_Set_ok.
  set (dir := entry_dir dc key fs).
  assert (∀ f, file_name f → f ≠ "" →
            resolve (stored fs1 dir ce seed) (Join [DirPath dc; key; f])
            = dir ++ [f]) as Hres.
  { intros f Hf Hne. rewrite resolve_Join_file by done.
    unfold dir, entry_dir. f_equal. by apply resolve_cwd. }
  split; [|split; [|split]].
  - eapply ReadFile_file;
      [by apply Join_file_not_empty | by apply Hres; [apply file_name_status|]
      | apply list_app_singleton_not_nil | apply stored_status].
  - exists (range seed (Headers ce)). split; [apply range_perm|].
    rewrite <- headersStr_format.
    eapply ReadFile_file;
      [by apply Join_file_not_empty | by apply Hres; [apply file_name_headers|]
      | apply list_app_singleton_not_nil | apply stored_headers].
  - eapply ReadFile_file;
      [by apply Join_file_not_empty | by apply Hres; [apply file_name_body|]
      | apply list_app_singleton_not_nil | apply stored_body].
  - intros q Hq. unfold entry_file in Hq. fold dir in Hq.
    rewrite !not_elem_of_cons in Hq. destruct Hq as (? & ? & ? & _).
    rewrite stored_other by done. apply Hdirs.
Qed.

Lemma disk_format_witness :
  DeskCache_Set dc_demo "GET-/users" entry_demo [] fs_demo = Ok None fs_stored
  ∧ ReadFile fs_stored "cache/GET-/users/status" = inr (bytes_of "200")
  ∧ ReadFile fs_stored "cache/GET-/users/body" = inr (bytes_of "{}")
  ∧ (∃ entries,
       entries ≡ₚ map_to_list (Headers entry_demo)
       ∧ ReadFile fs_stored "cache/GET-/users/headers"
         = inr (bytes_of (headers_file entries))).
Proof.
  assert (DeskCache_Set dc_demo "GET-/users" entry_demo [] fs_demo
          = Ok None fs_stored) as Hset by (vm_compute; reflexivity).
  destruct (disk_format dc_demo "GET-/users" entry_demo [] fs_demo fs_stored Hset)
    as (Hs & Hh & Hb & _).
  split; [exact Hset|]. split; [exact Hs|]. split; [exact Hb|]. exact Hh.
Defined.

(** C6.  Best-effort header parsing: [Get] does not fail on a headers file
    with lines that are no header record.  Such a line (one without a
    comma) is dropped, and the header map returned is the one the
    well-formed lines of the file give, record by record in their order. *)
Theorem disk_best_effort_headers dc key fs s h b :
  ReadFile fs (Join [DirPath dc; key; "status"]) = inr s →
  ReadFile fs (Join [DirPath dc; key; "headers"]) = inr h →
  ReadFile fs (Join [DirPath dc; key; "body"]) = inr b →
  ∃ ce, DeskCache_Get dc key fs = (Some ce, true)
        ∧ Headers ce
          = fold_left add_record
              (map record_of_line
                 (List.filter well_formed_line (Split (string_of h) nl))) ∅.
Proof.
  intros Hs Hh Hb. unfold DeskCache_Get. rewrite Hs, Hh, Hb.
  eexists. split; [done|]. simpl.
  by rewrite parseHeaders_records, add_records_filter.
Qed.

Lemma disk_best_effort_headers_witness :
  ReadFile fs_bad_headers (Join [DirPath dc_demo; "GET-/users"; "headers"])
    = inr (bytes_of ("garbage" +:+ NL +:+ "Vary,Accept" +:+ NL))
  ∧ ∃ ce, DeskCache_Get dc_demo "GET-/users" fs_bad_headers = (Some ce, true)
          ∧ Headers ce
            = fold_left add_record
                (map record_of_line
                   (List.filter well_formed_line
                      (Split ("garbage" +:+ NL +:+ "Vary,Accept" +:+ NL) nl))) ∅.
Proof.
  assert (ReadFile fs_bad_headers (Join [DirPath dc_demo; "GET-/users"; "headers"])
          = inr (bytes_of ("garbage" +:+ NL +:+ "Vary,Accept" +:+ NL))) as Hh.
  { vm_compute. reflexivity. }
  split; [exact Hh|].
  refine (disk_best_effort_headers dc_demo "GET-/users" fs_bad_headers
            (bytes_of "200") _ (bytes_of "{}") _ Hh _);
    vm_compute; reflexivity.
Defined.



(* ===================================================================== *)
(** * No expiry *)
(* ===================================================================== *)

Section persistence.
Implicit Types (dc : DeskCache) (fs : FS).

Lemma files_kept_refl fs : files_kept fs fs.
Proof. by split. Qed.

Lemma files_kept_trans fs1 fs2 fs3 :
  files_kept fs1 fs2 → files_kept fs2 fs3 → files_kept fs1 fs3.
Proof.
  intros [Hc1 H1] [Hc2 H2]. split; [congruence|]. intros q Hq. by apply H2, H1.
Qed.

Lemma only_dirs_added_kept fs fs' : only_dirs_added fs fs' → files_kept fs fs'.
Proof.
  intros Hd. split; [apply Hd|]. intros q.
  by rewrite (only_dirs_added_file_at _ _ _ Hd).
Qed.

Lemma write_file_kept fs q content : files_kept fs (write_file fs q content).
Proof.
  split; [done|]. intros q' Hq'. unfold file_at, write_file. simpl.
  destruct (decide (q' = q)) as [->|].
  - by rewrite lookup_insert_eq.
  - by rewrite lookup_insert_ne.
Qed.

Lemma createAndWriteFile_kept path content fs :
  files_kept fs (final_state (createAndWriteFile path content fs)).
Proof.
  destruct (createAndWriteFile_spec path content fs) as [[-> _]|[err ->]].
  - apply write_file_kept.
  - apply files_kept_refl.
Qed.

Lemma createAndWriteFile_returns path content fs :
  ∃ e fs', createAndWriteFile path content fs = Ok e fs'.
Proof.
  destruct (createAndWriteFile_spec path content fs) as [[-> _]|[err ->]]; eauto.
Qed.

Lemma storeEntryData_kept entryDir ce seed fs :
  files_kept fs (final_state (storeEntryData entryDir ce seed fs)).
Proof.
  unfold storeEntryData, bind.
  pose proof (createAndWriteFile_kept (Join [entryDir; "status"])
                (Itoa (StatusCode ce)) fs) as H1.
  destruct (createAndWriteFile_returns (Join [entryDir; "status"])
              (Itoa (StatusCode ce)) fs) as (e1 & fs1 & E1).
  rewrite E1 in *. simpl in H1. destruct e1; [done|].
  pose proof (createAndWriteFile_kept (Join [entryDir; "headers"])
                (headersStr (range seed (Headers ce))) fs1) as H2.
  destruct (createAndWriteFile_returns (Join [entryDir; "headers"])
              (headersStr (range seed (Headers ce))) fs1) as (e2 & fs2 & E2).
  rewrite E2 in *. simpl in H2. destruct e2; [by eapply files_kept_trans|].
  pose proof (createAndWriteFile_kept (Join [entryDir; "body"])
                (string_of (Body ce)) fs2) as H3.
  destruct (createAndWriteFile_returns (Join [entryDir; "body"])
              (string_of (Body ce)) fs2) as (e3 & fs3 & E3).
  rewrite E3 in *. simpl in H3.
  assert (files_kept fs fs3) by eauto using files_kept_trans.
  by destruct e3.
Qed.

(** Whatever way a [Set] ends, it leaves every regular file a regular
    file. *)
Lemma DeskCache_Set_kept dc key val seed fs :
  files_kept fs (final_state (DeskCache_Set dc key val seed fs)).
Proof.
  unfold DeskCache_Set, bind, call.
  destruct (MkdirAll (Join [DirPath dc; key]) fs) as [fs1 e] eqn:Hmk.
  apply MkdirAll_spec, only_dirs_added_kept in Hmk.
  destruct e; [done|].
  eapply files_kept_trans; [exact Hmk|]. apply storeEntryData_kept.
Qed.

Lemma ReadFile_kept fs fs' p c :
  files_kept fs fs' → ReadFile fs p = inr c → ∃ c', ReadFile fs' p = inr c'.
Proof.
  intros [Hcwd Hk] (Hp & Hq & Hc)%ReadFile_inr.
  destruct (Hk (resolve fs p)) as [c' Hc'].
  { unfold file_at. rewrite Hc. eauto. }
  exists c'. eapply ReadFile_file; [done|by apply resolve_cwd|done|].
  unfold file_at in Hc'.
  destruct (tree fs' !! resolve fs p) as [[]|]; by simplify_eq.
Qed.

Lemma entry_readable_kept dc key fs fs' :
  files_kept fs fs' → entry_readable dc key fs → entry_readable dc key fs'.
Proof.
  intros Hk Hr f Hf. destruct (Hr f Hf) as [c Hc]. by eapply ReadFile_kept.
Qed.

(** [Get] finds an entry exactly when its three files can be read. *)
Lemma DeskCache_Get_found dc key fs :
  (DeskCache_Get dc key fs).2 = true ↔ entry_readable dc key fs.
Proof.
  unfold DeskCache_Get, entry_readable. split.
  - intros Hfound f Hf.
    destruct (ReadFile fs (Join [_; _; "status"])) as [|s] eqn:Es; [done|].
    destruct (ReadFile fs (Join [_; _; "headers"])) as [|h] eqn:Eh; [done|].
    destruct (ReadFile fs (Join [_; _; "body"])) as [|b] eqn:Eb; [done|].
    repeat (apply elem_of_cons in Hf as [->|Hf]); [eauto..|].
    by apply elem_of_nil in Hf.
  - intros Hr.
    destruct (Hr "status") as [s ->]; [set_solver|].
    destruct (Hr "headers") as [h ->]; [set_solver|].
    destruct (Hr "body") as [b ->]; [set_solver|]. done.
Qed.

Lemma step_kept dc o s :
  is_clear o = false → files_kept (disk s) (disk (step dc o s)).
Proof.
  destruct o; simpl; intros Hc; try done; try apply files_kept_refl.
  apply DeskCache_Set_kept.
Qed.

Lemma run_kept dc ops s :
  Forall (λ o, is_clear o = false) ops → files_kept (disk s) (disk (run dc ops s)).
Proof.
  unfold run. revert s. induction ops as [|o ops IH]; intros s Hops.
  - apply files_kept_refl.
  - inversion Hops; subst. cbn [fold_left].
    eapply files_kept_trans; [by apply step_kept|]. by apply IH.
Qed.

End persistence.

(** C3.  No expiry: a key whose three files can be read is found by [Get],
    whatever TTL the cache was made with; and it is still found after any
    sequence of [Set] and [Get] calls and of time passing, for any amount of
    time: short of a [Clear] (or a deletion from outside), an entry does
    not go away. *)
Theorem disk_no_expiry dc key ttl ops s :
  entry_readable dc key (disk s) →
  Forall (λ o, is_clear o = false) ops →
  (DeskCache_Get {| DirPath := DirPath dc; TTL := ttl |} key (disk s)).2 = true
  ∧ (DeskCache_Get {| DirPath := DirPath dc; TTL := ttl |} key
       (disk (run dc ops s))).2 = true.
Proof.
  intros Hr Hops. split.
  - by apply DeskCache_Get_found.
  - apply DeskCache_Get_found.
    eapply (entry_readable_kept dc); [by apply run_kept|done].
Qed.

Lemma entry_readable_demo : entry_readable dc_demo "GET-/users" fs_stored.
Proof.
  intros f Hf.
  repeat (apply elem_of_cons in Hf as [->|Hf]);
    [eexists; vm_compute; reflexivity..|].
  by apply elem_of_nil in Hf.
Defined.

Lemma disk_no_expiry_witness :
  entry_readable dc_demo "GET-/users" fs_stored
  ∧ Forall (λ o, is_clear o = false) ops_demo
  ∧ (DeskCache_Get {| DirPath := "cache"; TTL := 1 |} "GET-/users" fs_stored).2 = true
  ∧ (DeskCache_Get {| DirPath := "cache"; TTL := 1 |} "GET-/users"
       (disk (run dc_demo ops_demo (mkSys fs_stored 0)))).2 = true.
Proof.
  assert (Forall (λ o, is_clear o = false) ops_demo) as Hops.
  { repeat constructor. }
  split; [exact entry_readable_demo|]. split; [exact Hops|].
  exact (disk_no_expiry dc_demo "GET-/users" 1 ops_demo (mkSys fs_stored 0)
           entry_readable_demo Hops).
Defined.

(* ===================================================================== *)
(** * Clear and the constructor *)
(* ===================================================================== *)

Section clear_facts.
Implicit Types (dc : DeskCache) (fs : FS).


Lemma RemoveAll_no_error p fs fs' :
  RemoveAll p fs = (fs', None) →
  (p = "" ∧ fs' = fs)
  ∨ (p ≠ "" ∧ endsWithDot p = false ∧ resolve fs p ≠ []
     ∧ fs' = set_tree (filter (λ kv, ¬ resolve fs p `prefix_of` kv.1) (tree fs)) fs).
Proof.
  unfold RemoveAll. case_decide as Hp; [intros [= <-]; by left|].
  destruct (endsWithDot p) eqn:Hdot; [done|].
  destruct (resolve fs p) as [|x q] eqn:Hq; [done|].
  intros [= <-]. by right.
Qed.

Lemma removed_below (q r : list string) (t : gmap (list string) node) :
  q `prefix_of` r → filter (λ kv, ¬ q `prefix_of` kv.1) t !! r = None.
Proof.
  intros Hpre. apply map_lookup_filter_None. right. intros x _ Hn. by apply Hn.
Qed.


Lemma joined_not_empty d k : d ≠ "" → joined d k ≠ "".
Proof. unfold joined. intros Hd. rewrite decide_False by done. by destruct d. Qed.

(** Without a [..] element, following a path stays below the start. *)
Lemma walk_below stk cs :
  Forall (λ c, c ≠ "..") cs → ∃ more, walk stk cs = more ++ stk.
Proof.
  revert stk. induction cs as [|c cs IH]; intros stk Hcs.
  - by exists [].
  - inversion Hcs; subst. cbn [walk].
    destruct (decide (skipped c)); [by apply IH|].
    rewrite decide_False by done.
    destruct (IH (c :: stk)) as [more ->]; [done|].
    exists (more ++ [c]). by rewrite <- app_assoc.
Qed.

(** The directory of a key without [..] elements lies in the root. *)
Lemma entry_dir_in_root dc key fs :
  DirPath dc ≠ "" →
  Forall (λ c, c ≠ "..") (Split key "/"%char) →
  resolve fs (DirPath dc) `prefix_of` entry_dir dc key fs.
Proof.
  intros Hd Hkey. unfold entry_dir.
  rewrite Join_dir, resolve_Clean by (by apply joined_not_empty).
  unfold joined. rewrite decide_False by done.
  rewrite resolve_sub by done.
  destruct (walk_below (rev (resolve fs (DirPath dc))) _ Hkey) as [more ->].
  rewrite rev_app_distr, rev_involutive. by eexists.
Qed.

End clear_facts.




Section constructor_facts.

Lemma validateDirPath_not_dir dirPath fs :
  dirPath = "" ∨ lookup_node fs (resolve fs dirPath) ≠ Some Dir →
  ∃ err, validateDirPath dirPath fs = Some err.
Proof.
  unfold validateDirPath, Stat. intros [->|Hn]; [simpl; eauto|].
  case_decide; [simpl; eauto|].
  destruct (lookup_node fs (resolve fs dirPath)) as [[]|]; [|done|].
  - simpl. eauto.
  - destruct (IsNotExist _); eauto.
Qed.

Lemma NewDeskCache_not_dir dirPath port ttl fs :
  dirPath = "" ∨ lookup_node fs (resolve fs dirPath) ≠ Some Dir →
  ∃ err, NewDeskCache dirPath port ttl fs = Ok (inl err) fs.
Proof.
  intros [err Hv]%validateDirPath_not_dir.
  exists err. unfold NewDeskCache, bind, gets. by rewrite Hv.
Qed.

(** On a directory that is there the constructor succeeds and leaves the
    disk alone. *)
Lemma NewDeskCache_dir dirPath port ttl fs :
  dirPath ≠ "" → lookup_node fs (resolve fs dirPath) = Some Dir →
  NewDeskCache dirPath port ttl fs
  = Ok (inr {| DirPath := dirPath; TTL := ttl |}) fs.
Proof.
  intros Hp Hd.
  assert (Stat fs dirPath = inr {| IsDir := true |}) as Hstat.
  { unfold Stat. by rewrite decide_False, Hd. }
  unfold NewDeskCache, bind, gets, validateDirPath. rewrite Hstat. simpl.
  unfold call, MkdirAll. by rewrite Hstat.
Qed.

End constructor_facts.

(** C10.  [NewDeskCache] returns an error and no cache when the root path
    names nothing or names something that is no directory; so it does on
    the disk a [Clear] of a cache with that root has left behind without
    error. *)
Theorem new_desk_cache_needs_dir dirPath port ttl fs :
  (dirPath = "" ∨ lookup_node fs (resolve fs dirPath) ≠ Some Dir)
  ∨ (∃ ttl0 fs0,
       DeskCache_Clear {| DirPath := dirPath; TTL := ttl0 |} fs0 = Ok None fs) →
  ∃ err, NewDeskCache dirPath port ttl fs = Ok (inl err) fs.
Proof.
  intros [Hn|(ttl0 & fs0 & Hclear)]; [by apply NewDeskCache_not_dir|].
  apply NewDeskCache_not_dir.
  unfold DeskCache_Clear, bind, call in Hclear. simpl in Hclear.
  destruct (RemoveAll dirPath fs0) as [fs1 [e|]] eqn:Hrm; [done|].
  injection Hclear as <-.
  apply RemoveAll_no_error in Hrm as [[-> _]|(Hp & Hdot & Hroot & ->)];
    [by left|right].
  change (resolve (set_tree _ fs0) dirPath) with (resolve fs0 dirPath).
  destruct (resolve fs0 dirPath) as [|x q] eqn:Hq; [done|].
  simpl. by rewrite removed_below.
Qed.

Lemma new_desk_cache_needs_dir_witness :
  let fs' := final_state (DeskCache_Clear dc_demo fs_stored) in
  NewDeskCache "cache" ":8080" 1 fs_stored
    = Ok (inr {| DirPath := "cache"; TTL := 1 |}) fs_stored
  ∧ DeskCache_Clear dc_demo fs_stored = Ok None fs'
  ∧ ∃ err, NewDeskCache "cache" ":8080" 1 fs' = Ok (inl err) fs'.
Proof.
  assert (DeskCache_Clear dc_demo fs_stored
          = Ok None (final_state (DeskCache_Clear dc_demo fs_stored))) as Hc.
  { vm_compute. reflexivity. }
  cbv zeta. split; [vm_compute; reflexivity|]. split; [exact Hc|].
  apply (new_desk_cache_needs_dir "cache" ":8080" 1).
  right. exists (TTL dc_demo), fs_stored. exact Hc.
Defined.

(* ===================================================================== *)
(** * The handler *)
(* ===================================================================== *)

Section monad_facts.
Context {S : Type}.

Lemma preserves_ret {A} (P : S → Prop) (a : A) : preserves P (ret a).
Proof. by intros s. Qed.

Lemma preserves_bind {A B} (P : S → Prop) (m : M S A) (k : A → M S B) :
  preserves P m → (∀ a, preserves P (k a)) → preserves P (bind m k).
Proof.
  intros Hm Hk s Hs. unfold bind. specialize (Hm s Hs).
  destruct (m s) as [a s'| |]; [by apply Hk|done..].
Qed.

Lemma preserves_gets {A} (P : S → Prop) (f : S → A) : preserves P (gets f).
Proof. by intros s. Qed.

Lemma preserves_panic {A} (P : S → Prop) : preserves P (@panic S A).
Proof. by intros s. Qed.

Lemma preserves_if {A} (P : S → Prop) (b : bool) (m1 m2 : M S A) :
  preserves P m1 → preserves P m2 → preserves P (if b then m1 else m2).
Proof. by destruct b. Qed.

End monad_facts.

Section writer_facts.
Implicit Types (rw : ResponseWriter) (h : Header).

Lemma HGet_HSet h v : HGet (HSet h "X-Cache" v) "X-Cache" = v.
Proof. unfold HGet, HSet, values. by rewrite lookup_insert_eq. Qed.

Lemma HGet_HSet_other h k u :
  CanonicalMIMEHeaderKey k ≠ CanonicalMIMEHeaderKey "X-Cache" →
  HGet (HSet h k u) "X-Cache" = HGet h "X-Cache".
Proof. intros Hk. unfold HGet, HSet, values. by rewrite lookup_insert_ne. Qed.

Lemma HGet_Del_other h k :
  CanonicalMIMEHeaderKey k ≠ CanonicalMIMEHeaderKey "X-Cache" →
  HGet (Del h k) "X-Cache" = HGet h "X-Cache".
Proof. intros Hk. unfold HGet, Del, values. by rewrite lookup_delete_ne. Qed.

(** [Add] appends: a header that has a value keeps its first value. *)
Lemma HGet_Add h k u v :
  v ≠ "" → HGet h "X-Cache" = v → HGet (Add h k u) "X-Cache" = v.
Proof.
  intros Hv. unfold HGet, Add, values.
  destruct (decide (CanonicalMIMEHeaderKey k = CanonicalMIMEHeaderKey "X-Cache"))
    as [->|Hne].
  - rewrite lookup_insert_eq.
    destruct (h !! CanonicalMIMEHeaderKey "X-Cache") as [[|x xs]|]; simpl;
      congruence.
  - by rewrite lookup_insert_ne.
Qed.

Lemma HGet_copyHeaders h src seed v :
  v ≠ "" → HGet h "X-Cache" = v → HGet (copyHeaders h src seed) "X-Cache" = v.
Proof.
  intros Hv. unfold copyHeaders. generalize (range seed src). intros entries.
  revert h. induction entries as [|[k vv] entries IH]; intros h Hh; [done|].
  cbn [fold_left]. apply IH. simpl. clear IH.
  revert h Hh. induction vv as [|u vv IHv]; intros h Hh; [done|].
  cbn [fold_left]. by apply IHv, HGet_Add.
Qed.

Lemma carries_editHeader v f :
  (∀ h, HGet h "X-Cache" = v → HGet (f h) "X-Cache" = v) →
  preserves (carries v) (editHeader f).
Proof. intros Hf rw [Hh Hs]. split; [by apply Hf|done]. Qed.

Lemma carries_WriteHeader v code : preserves (carries v) (WriteHeader code).
Proof.
  intros rw [Hh Hs]. unfold WriteHeader.
  destruct (wroteHeader rw) as [x|] eqn:Hw; [by split|].
  destruct ((code <? 100) || (999 <? code)); [by split|].
  assert (Forall (λ resp : Z * Header, HGet resp.2 "X-Cache" = v) (interim rw))
    as Hi.
  { unfold sent in Hs. rewrite Hw in Hs. simpl in Hs. by rewrite app_nil_r in Hs. }
  destruct ((100 <=? code) && (code <=? 199) && negb (code =? 101));
    (split; [done|]); unfold sent; simpl.
  - rewrite app_nil_r. apply Forall_app. split; [done|]. by repeat constructor.
  - apply Forall_app. split; [done|]. by repeat constructor.
Qed.

Lemma carries_Write v b : preserves (carries v) (Write b).
Proof.
  unfold Write. apply preserves_bind; [apply carries_WriteHeader|].
  intros _ rw [Hh Hs].
  destruct (wroteHeader rw) as [[status hdr]|] eqn:Hw; [|done].
  destruct (bodyAllowedForStatus status); [|done].
  split; [done|]. unfold sent in *. simpl. by rewrite Hw in Hs.
Qed.

Lemma carries_Error v msg code : preserves (carries v) (Error msg code).
Proof.
  unfold Error.
  apply preserves_bind; [|intros _].
  { apply carries_editHeader. intros h Hh. by rewrite HGet_Del_other. }
  apply preserves_bind; [|intros _].
  { apply carries_editHeader. intros h Hh. by rewrite HGet_HSet_other. }
  apply preserves_bind; [|intros _].
  { apply carries_editHeader. intros h Hh. by rewrite HGet_HSet_other. }
  apply preserves_bind; [|intros _].
  { apply carries_WriteHeader. }
  apply carries_Write.
Qed.

(** After [Write] has returned, the final status line is out. *)
Lemma Write_wrote b rw rw' :
  Write b rw = Ok () rw' → is_Some (wroteHeader rw').
Proof.
  unfold Write, bind, WriteHeader.
  destruct (wroteHeader rw) as [[status hdr]|] eqn:Hw.
  - rewrite Hw. destruct (bodyAllowedForStatus status); intros [= <-];
      simpl; rewrite ?Hw; eauto.
  - simpl. intros [= <-]. simpl. eauto.
Qed.

Lemma Error_wrote msg code rw rw' :
  Error msg code rw = Ok () rw' → is_Some (wroteHeader rw').
Proof.
  unfold Error. unfold bind at 1 2 3 4. simpl.
  destruct (WriteHeader code _) as [[] rw1| |]; [|done..].
  apply Write_wrote.
Qed.

End writer_facts.

Section handler_facts.
Context {Cache Store : Type}.
Variable cache_get : Cache → string → Store → option CacheEntry * bool.
Variable cache_put : Cache → string → CacheEntry → M Store ().
Variable client : Client.
Implicit Types (wd : World Store) (r : Request) (cps : CachingProxyServer Cache).

Lemma on_w_store {A} (m : M ResponseWriter A) s0 :
  preserves (λ wd, store wd = s0) (on_w m).
Proof. intros wd Hs. unfold on_w. by destruct (m (w wd)). Qed.

Lemma on_w_wire {A} (m : M ResponseWriter A) x :
  preserves (λ wd : World Store, wire wd = x) (on_w m).
Proof. intros wd Hs. unfold on_w. by destruct (m (w wd)). Qed.

Lemma on_w_logs {A} (m : M ResponseWriter A) l :
  preserves (λ wd : World Store, logs wd = l) (on_w m).
Proof. intros wd Hs. unfold on_w. by destruct (m (w wd)). Qed.

Lemma on_w_carries {A} (m : M ResponseWriter A) v :
  preserves (carries v) m →
  preserves (λ wd : World Store, carries v (w wd)) (on_w m).
Proof.
  intros Hm wd Hs. unfold on_w. specialize (Hm (w wd) Hs).
  by destruct (m (w wd)).
Qed.

Lemma on_store_wire {A} (m : M Store A) x :
  preserves (λ wd : World Store, wire wd = x) (on_store m).
Proof. intros wd Hs. unfold on_store. by destruct (m (store wd)). Qed.

Lemma on_store_logs {A} (m : M Store A) l :
  preserves (λ wd : World Store, logs wd = l) (on_store m).
Proof. intros wd Hs. unfold on_store. by destruct (m (store wd)). Qed.

Lemma on_store_w {A} (m : M Store A) (Q : ResponseWriter → Prop) :
  preserves (λ wd : World Store, Q (w wd)) (on_store m).
Proof. intros wd Hs. unfold on_store. by destruct (m (store wd)). Qed.

Lemma client_Do_store req s0 :
  preserves (λ wd, store wd = s0) (client_Do client req).
Proof. by intros wd Hs. Qed.

Lemma client_Do_logs req l :
  preserves (λ wd : World Store, logs wd = l) (client_Do client req).
Proof. by intros wd Hs. Qed.

Lemma client_Do_w req (Q : ResponseWriter → Prop) :
  preserves (λ wd : World Store, Q (w wd)) (client_Do client req).
Proof. by intros wd Hs. Qed.

Lemma handleRequests_unfold cps r seed wd :
  handleRequests cache_get cache_put client cps r seed wd =
    if (cache_get (Cache_ cps) (cacheKey r) (store wd)).2
       && bool_decide (Method r = "GET")
    then (Println ["HIT:  "; cacheKey r] ;;;
          on_w (editHeader (λ h, HSet h "X-Cache" "HIT")) ;;;
          hit_reply (cache_get (Cache_ cps) (cacheKey r) (store wd)).1 seed) wd
    else (Println ["MISS: "; cacheKey r] ;;;
          on_w (editHeader (λ h, HSet h "X-Cache" "MISS")) ;;;
          miss_reply cache_put client cps r seed) wd.
Proof.
  unfold handleRequests. unfold bind at 1. unfold gets.
  by destruct (_ && _).
Qed.

Lemma marker_step args v (tail : M (World Store) ()) wd :
  (Println args ;;; on_w (editHeader (λ h, HSet h "X-Cache" v)) ;;; tail) wd
  = tail (marked (Sprintln args) v wd).
Proof. done. Qed.

Lemma marked_carries line v wd :
  sent (w wd) = [] → carries v (w (marked line v wd)).
Proof.
  intros Hs. split; simpl; [apply HGet_HSet|].
  unfold sent in *. simpl. rewrite Hs. constructor.
Qed.

Lemma copy_carries v src seed :
  v ≠ "" → preserves (carries v) (editHeader (λ h, copyHeaders h src seed)).
Proof. intros Hv. apply carries_editHeader. intros h. by apply HGet_copyHeaders. Qed.

Lemma hit_reply_store val seed s0 :
  preserves (λ wd, store wd = s0) (hit_reply val seed).
Proof.
  destruct val; [|apply preserves_panic]. simpl.
  repeat (apply preserves_bind; [apply on_w_store|intros _]). apply on_w_store.
Qed.

Lemma hit_reply_wire val seed x :
  preserves (λ wd : World Store, wire wd = x) (hit_reply val seed).
Proof.
  destruct val; [|apply preserves_panic]. simpl.
  repeat (apply preserves_bind; [apply on_w_wire|intros _]). apply on_w_wire.
Qed.

Lemma hit_reply_logs val seed l :
  preserves (λ wd : World Store, logs wd = l) (hit_reply val seed).
Proof.
  destruct val; [|apply preserves_panic]. simpl.
  repeat (apply preserves_bind; [apply on_w_logs|intros _]). apply on_w_logs.
Qed.

Lemma hit_reply_carries val seed v :
  v ≠ "" → preserves (λ wd : World Store, carries v (w wd)) (hit_reply val seed).
Proof.
  intros Hv. destruct val; [|apply preserves_panic]. simpl.
  apply preserves_bind; [apply on_w_carries, carries_WriteHeader|intros _].
  apply preserves_bind; [by apply on_w_carries, copy_carries|intros _].
  apply on_w_carries, carries_Write.
Qed.

Lemma on_w_Write_wrote b wd wd' :
  on_w (Write b) wd = Ok () wd' → is_Some (wroteHeader (w wd')).
Proof.
  unfold on_w. destruct (Write b (w wd)) as [[] rw| |] eqn:Hw; [|done..].
  intros [= Heq]. rewrite <- Heq. simpl. by eapply Write_wrote.
Qed.

Lemma on_w_Error_wrote msg code wd wd' :
  on_w (Error msg code) wd = Ok () wd' → is_Some (wroteHeader (w wd')).
Proof.
  unfold on_w. destruct (Error msg code (w wd)) as [[] rw| |] eqn:Hw; [|done..].
  intros [= Heq]. rewrite <- Heq. simpl. by eapply Error_wrote.
Qed.

Lemma bind_Ok {S A B} (m : M S A) (k : A → M S B) s b s' :
  bind m k s = Ok b s' → ∃ a s1, m s = Ok a s1 ∧ k a s1 = Ok b s'.
Proof. unfold bind. destruct (m s) as [a s1| |]; [eauto|done..]. Qed.

Lemma hit_reply_wrote val seed wd wd' :
  hit_reply val seed wd = Ok () wd' → is_Some (wroteHeader (w wd')).
Proof.
  destruct val; [|done]. simpl.
  intros (_ & wd1 & _ & (_ & wd2 & _ & H)%bind_Ok)%bind_Ok.
  by eapply on_w_Write_wrote.
Qed.

Lemma miss_reply_logs cps r seed l :
  preserves (λ wd : World Store, logs wd = l) (miss_reply cache_put client cps r seed).
Proof.
  unfold miss_reply. destruct (NewRequest _ _ _ _); [|apply on_w_logs].
  apply preserves_bind; [apply client_Do_logs|intros [resp|]]; [|apply on_w_logs].
  destruct (ReadAll _); [|apply on_w_logs].
  repeat (apply preserves_bind; [apply on_w_logs|intros _]).
  apply preserves_if; [apply on_store_logs|apply preserves_ret].
Qed.

Lemma miss_reply_carries cps r seed v :
  v ≠ "" →
  preserves (λ wd : World Store, carries v (w wd))
    (miss_reply cache_put client cps r seed).
Proof.
  intros Hv. unfold miss_reply.
  destruct (NewRequest _ _ _ _); [|apply on_w_carries, carries_Error].
  apply preserves_bind; [apply (client_Do_w _ (carries v))|intros [resp|]];
    [|apply on_w_carries, carries_Error].
  destruct (ReadAll _); [|apply on_w_carries, carries_Error].
  apply preserves_bind; [apply on_w_carries, carries_WriteHeader|intros _].
  apply preserves_bind; [by apply on_w_carries, copy_carries|intros _].
  apply preserves_bind; [apply on_w_carries, carries_Write|intros _].
  apply preserves_if; [apply (on_store_w _ (carries v))|apply preserves_ret].
Qed.

(** A request that is no GET leaves the cache as it is. *)
Lemma miss_reply_store cps r seed s0 :
  Method r ≠ "GET" →
  preserves (λ wd, store wd = s0) (miss_reply cache_put client cps r seed).
Proof.
  intros Hm. unfold miss_reply. destruct (NewRequest _ _ _ _); [|apply on_w_store].
  apply preserves_bind; [apply client_Do_store|intros [resp|]]; [|apply on_w_store].
  destruct (ReadAll _); [|apply on_w_store].
  repeat (apply preserves_bind; [apply on_w_store|intros _]).
  rewrite bool_decide_eq_false_2 by done. apply preserves_ret.
Qed.

Lemma on_store_Ok_w {A} (m : M Store A) wd a wd' :
  on_store m wd = Ok a wd' → w wd' = w wd.
Proof.
  unfold on_store. destruct (m (store wd)); [|done..]. by intros [= _ <-].
Qed.

Lemma miss_reply_wrote cps r seed wd wd' :
  miss_reply cache_put client cps r seed wd = Ok () wd' →
  is_Some (wroteHeader (w wd')).
Proof.
  unfold miss_reply. destruct (NewRequest _ _ _ _); [|apply on_w_Error_wrote].
  intros (resp & wd1 & _ & H)%bind_Ok. revert H.
  destruct resp as [resp|]; [|apply on_w_Error_wrote].
  destruct (ReadAll _); [|apply on_w_Error_wrote].
  intros (? & wd2 & _ & (? & wd3 & _ & ([] & wd4 & Hw & H)%bind_Ok)%bind_Ok)%bind_Ok.
  apply on_w_Write_wrote in Hw.
  destruct (bool_decide _).
  - apply on_store_Ok_w in H. by rewrite H.
  - by injection H as <-.
Qed.

End handler_facts.


(** C8.  GET-only caching with the [X-Cache] marker.  A request goes one of
    two ways.  Served from the cache: then it is a GET and the cache has an
    entry for its key, nothing goes to the origin, nothing is stored, and
    every response sent carries [X-Cache: HIT].  Or passed on to the
    origin: then every response sent carries [X-Cache: MISS], and unless
    the request is a GET nothing is stored.  A request that is no GET goes
    the second way whatever the cache holds.  When the handler returns, a
    response has been sent. *)
Theorem handler_get_only {Cache Store : Type}
    (cache_get : Cache → string → Store → option CacheEntry * bool)
    (cache_put : Cache → string → CacheEntry → M Store ())
    (client : Client) (cps : CachingProxyServer Cache)
    (r : Request) (seed : list nat) (wd : World Store) :
  sent (w wd) = [] →
  let key := cacheKey r in
  let res := handleRequests cache_get cache_put client cps r seed wd in
  let wd' := final_state res in
  ((Method r = "GET"
    ∧ (cache_get (Cache_ cps) key (store wd)).2 = true
    ∧ logs wd' = logs wd ++ [Sprintln ["HIT:  "; key]]
    ∧ wire wd' = wire wd
    ∧ store wd' = store wd
    ∧ Forall (λ resp, HGet resp.2 "X-Cache" = "HIT") (sent (w wd')))
   ∨ ((Method r ≠ "GET" ∨ (cache_get (Cache_ cps) key (store wd)).2 = false)
      ∧ logs wd' = logs wd ++ [Sprintln ["MISS: "; key]]
      ∧ Forall (λ resp, HGet resp.2 "X-Cache" = "MISS") (sent (w wd'))
      ∧ (Method r ≠ "GET" → store wd' = store wd)))
  ∧ (returned res = Some () → is_Some (wroteHeader (w wd'))).
Proof.
  intros Hfresh key res wd'. subst res wd'.
  rewrite handleRequests_unfold. fold key.
  destruct ((cache_get (Cache_ cps) key (store wd)).2
            && bool_decide (Method r = "GET")) eqn:Hcond.
  - apply andb_true_iff in Hcond as [Hfound Hget%bool_decide_eq_true].
    rewrite marker_step. split.
    + left. split; [done|]. split; [done|].
      split; [by apply (hit_reply_logs _ _ (logs wd ++ [_]))|].
      split; [by apply (hit_reply_wire _ _ (wire wd))|].
      split; [by apply (hit_reply_store _ _ (store wd))|].
      by apply (hit_reply_carries _ _ "HIT"), marked_carries.
    + destruct (hit_reply _ _ _) as [[] wd1| |] eqn:Hr; [|done..].
      intros _. simpl. by eapply hit_reply_wrote.
  - rewrite marker_step. split.
    + right. split.
      { apply andb_false_iff in Hcond as [Hc|Hc%bool_decide_eq_false]; auto. }
      split; [by apply (miss_reply_logs _ _ _ _ _ (logs wd ++ [_]))|].
      split; [by apply (miss_reply_carries _ _ _ _ _ "MISS"), marked_carries|].
      intros Hm. by apply (miss_reply_store _ _ _ _ _ (store wd)).
    + destruct (miss_reply _ _ _ _ _ _) as [[] wd1| |] eqn:Hr; [|done..].
      intros _. simpl. by eapply miss_reply_wrote.
Qed.

Lemma handler_get_only_witness :
  let wd := world fs_stored in
  let wd' := final_state (handleRequests_disk client_demo [] cps_demo req_post [] wd) in
  sent (w wd) = []
  ∧ (DeskCache_Get dc_demo (cacheKey req_post) fs_stored).2 = false
  ∧ logs wd' = [Sprintln ["MISS: "; "POST-/users"]]
  ∧ Forall (λ resp, HGet resp.2 "X-Cache" = "MISS") (sent (w wd'))
  ∧ store wd' = fs_stored.
Proof.
  cbv zeta.
  destruct (handler_get_only DeskCache_Get (disk_put []) client_demo cps_demo
              req_post [] (world fs_stored) eq_refl)
    as [[(Hget & _)|(_ & Hlogs & Hsent & Hstore)] _]; [done|].
  split; [reflexivity|]. split; [vm_compute; reflexivity|].
  split; [exact Hlogs|]. split; [exact Hsent|]. by apply Hstore.
Defined.

(* ===================================================================== *)
(** * More on the disk backend *)
(* ===================================================================== *)

Section more_paths.
Variable fs : FS.

Lemma resolve_plain f : file_name f → resolve fs f = cwd fs ++ [f].
Proof.
  intros (Hs & Hk & Hd). unfold resolve.
  assert (starts_with f "/"%char = false) as ->.
  { destruct (starts_with f "/"%char) eqn:E; [|done].
    apply starts_with_contains in E. congruence. }
  rewrite Split_free, walk_name by done. simpl. by rewrite rev_involutive.
Qed.

Lemma joined_empty d k : joined d k = "" → d = "" ∧ k = "".
Proof.
  unfold joined. destruct (decide (d = "")) as [->|]; [done|]. by destruct d.
Qed.

(** The place of a file of an entry, for every root and key. *)
Lemma resolve_Join_file_any d k f :
  file_name f → resolve fs (Join [d; k; f]) = resolve fs (Join [d; k]) ++ [f].
Proof.
  intros Hf. destruct (decide (joined d k = "")) as [[-> ->]%joined_empty|Hj].
  - assert (f ≠ "") as Hne.
    { destruct Hf as (_ & Hk & _). intros ->. apply Hk. by left. }
    cbn [Join]. simpl. rewrite decide_False by done. rewrite resolve_Clean.
    rewrite resolve_plain by done. f_equal. unfold resolve. simpl.
    by rewrite rev_involutive.
  - by apply resolve_Join_file.
Qed.

End more_paths.

Section more_files.
Implicit Types (dc : DeskCache) (fs : FS).

Lemma file_name_not_empty f : file_name f → f ≠ "".
Proof. intros (_ & Hk & _) ->. apply Hk. by left. Qed.

(** Reading a file of an entry succeeds exactly when a regular file is in
    its place. *)
Lemma ReadFile_entry dc key f fs :
  file_name f →
  match ReadFile fs (Join [DirPath dc; key; f]) with
  | inr c => file_at fs (entry_file dc key f fs) = Some c
  | inl _ => file_at fs (entry_file dc key f fs) = None
  end.
Proof.
  intros Hf. unfold ReadFile, entry_file, entry_dir, file_at.
  rewrite decide_False by (by apply Join_file_not_empty, file_name_not_empty).
  rewrite resolve_Join_file_any by done.
  destruct (resolve fs (Join [DirPath dc; key]) ++ [f]) as [|x q] eqn:Hq.
  { by apply list_app_singleton_not_nil in Hq. }
  simpl. by destruct (tree fs !! (x :: q)) as [[]|].
Qed.

(** [Get] in terms of the files in place, for every root and key. *)
Lemma DeskCache_Get_files_any dc key fs :
  DeskCache_Get dc key fs =
    match file_at fs (entry_file dc key "status" fs),
          file_at fs (entry_file dc key "headers" fs),
          file_at fs (entry_file dc key "body" fs) with
    | Some s, Some h, Some b =>
        (Some {| StatusCode := (Atoi (string_of s)).1; Body := b;
                 Headers := parseHeaders (string_of h) |}, true)
    | _, _, _ => (None, false)
    end.
Proof.
  unfold DeskCache_Get.
  pose proof (ReadFile_entry dc key "status" fs file_name_status) as Hs.
  pose proof (ReadFile_entry dc key "headers" fs file_name_headers) as Hh.
  pose proof (ReadFile_entry dc key "body" fs file_name_body) as Hb.
  destruct (ReadFile fs (Join [_; _; "status"])); rewrite Hs; [done|].
  destruct (ReadFile fs (Join [_; _; "headers"])); rewrite Hh; [done|].
  destruct (ReadFile fs (Join [_; _; "body"])); rewrite Hb; done.
Qed.

(** [createAndWriteFile] by cases: it writes the file, which needs the
    directory above to be there and no directory in the place of the file,
    or it returns an error and leaves the disk alone. *)
Lemma createAndWriteFile_cases path content fs :
  let q := resolve fs path in
  (createAndWriteFile path content fs = Ok None (write_file fs q content)
   ∧ path ≠ "" ∧ q ≠ []
   ∧ lookup_node fs (removelast q) = Some Dir
   ∧ lookup_node fs q ≠ Some Dir)
  ∨ (∃ err, createAndWriteFile path content fs = Ok (Some err) fs
            ∧ (path = "" ∨ lookup_node fs (removelast q) ≠ Some Dir
               ∨ lookup_node fs q = Some Dir)).
Proof.
  cbv zeta. unfold createAndWriteFile, bind, call, Create.
  destruct (decide (path = "")) as [->|Hp]; [right; eauto|].
  destruct (lookup_node fs (removelast (resolve fs path))) as [[]|] eqn:Hpar;
    [right; eauto 6| |right; eauto 6].
  destruct (resolve fs path) as [|x q'] eqn:Hq.
  { simpl. right; eauto 6. }
  set (q := x :: q') in *.
  assert (∀ t, WriteString q content (set_tree (<[q := File []]> t) fs)
               = (write_file (set_tree t fs) q content, None)) as Hw.
  { intros t. unfold WriteString, write_file. simpl.
    by rewrite lookup_insert_eq, insert_insert_eq. }
  destruct (lookup_node fs q) as [[]|] eqn:Hl.
  - left. rewrite Hw. by destruct fs.
  - right; eauto 6.
  - left. rewrite Hw. by destruct fs.
Qed.

Lemma lookup_node_write_file fs q content q' :
  q ≠ [] → q' ≠ q →
  lookup_node (write_file fs q content) q' = lookup_node fs q'.
Proof.
  intros Hq Hne. unfold lookup_node, write_file. simpl.
  destruct q'; [done|]. by rewrite lookup_insert_ne.
Qed.

Lemma file_at_write_file fs q content q' :
  q' ≠ q → file_at (write_file fs q content) q' = file_at fs q'.
Proof. intros Hne. unfold file_at, write_file. simpl. by rewrite lookup_insert_ne. Qed.

Lemma files_same_except_refl qs fs : files_same_except qs fs fs.
Proof. by split. Qed.

Lemma files_same_except_trans qs fs1 fs2 fs3 :
  files_same_except qs fs1 fs2 → files_same_except qs fs2 fs3 →
  files_same_except qs fs1 fs3.
Proof.
  intros [Hc1 H1] [Hc2 H2]. split; [congruence|].
  intros q Hq. by rewrite H2, H1.
Qed.

Lemma only_dirs_added_same qs fs fs' :
  only_dirs_added fs fs' → files_same_except qs fs fs'.
Proof.
  intros Hd. split; [apply Hd|]. intros q _.
  by apply only_dirs_added_file_at.
Qed.

Lemma createAndWriteFile_same qs path content fs :
  resolve fs path ∈ qs →
  files_same_except qs fs (final_state (createAndWriteFile path content fs)).
Proof.
  intros Hin.
  destruct (createAndWriteFile_cases path content fs)
    as [(-> & _)|(err & -> & _)]; [|apply files_same_except_refl].
  split; [done|]. intros q Hq. apply file_at_write_file. by intros ->.
Qed.

Lemma dirs_kept_refl fs : dirs_kept fs fs.
Proof. by split. Qed.

Lemma dirs_kept_trans fs1 fs2 fs3 :
  dirs_kept fs1 fs2 → dirs_kept fs2 fs3 → dirs_kept fs1 fs3.
Proof.
  intros [Hc1 H1] [Hc2 H2]. split; [congruence|]. intros q Hq. by apply H2, H1.
Qed.

Lemma only_dirs_added_dirs fs fs' : only_dirs_added fs fs' → dirs_kept fs fs'.
Proof.
  intros [Hc Hd]. split; [done|]. intros [|x q]; [done|]. simpl.
  destruct (Hd (x :: q)) as [->|[? ->]]; done.
Qed.

Lemma createAndWriteFile_dirs path content fs :
  dirs_kept fs (final_state (createAndWriteFile path content fs)).
Proof.
  destruct (createAndWriteFile_cases path content fs)
    as [(-> & _ & Hq & _ & Hnd)|(err & -> & _)]; [|apply dirs_kept_refl].
  split; [done|]. intros q' Hq'. simpl.
  rewrite lookup_node_write_file; [done..|]. by intros ->.
Qed.

End more_files.

Section more_set.
Implicit Types (dc : DeskCache) (fs : FS) (ce : CacheEntry).

Lemma mkdir_all_made fs done rest fs1 :
  mkdir_all fs done rest = (fs1, None) →
  lookup_node fs done = Some Dir →
  lookup_node fs1 (done ++ rest) = Some Dir.
Proof.
  revert fs done. induction rest as [|c rest IH]; intros fs done.
  - intros [= <-]. by rewrite app_nil_r.
  - cbn [mkdir_all]. cbv zeta.
    replace (done ++ c :: rest) with ((done ++ [c]) ++ rest)
      by (by rewrite <- app_assoc).
    destruct (lookup_node fs (done ++ [c])) as [[]|] eqn:Hl; [done| |].
    + intros Hm _. by eapply IH.
    + intros Hm _. eapply IH; [exact Hm|].
      destruct (done ++ [c]) eqn:Hd; [by destruct done|].
      simpl. by rewrite lookup_insert_eq.
Qed.

(** After [MkdirAll] has returned no error the directory is there. *)
Lemma MkdirAll_made p fs fs1 :
  MkdirAll p fs = (fs1, None) →
  p ≠ "" ∧ lookup_node fs1 (resolve fs p) = Some Dir.
Proof.
  unfold MkdirAll, Stat.
  destruct (decide (p = "")) as [->|Hp]; [done|].
  destruct (lookup_node fs (resolve fs p)) as [[]|] eqn:Hl; simpl.
  - done.
  - by intros [= <-].
  - intros Hm. split; [done|]. by apply (mkdir_all_made _ [] _ _ Hm).
Qed.





Lemma storeEntryData_same entryDir ce seed fs qs :
  entryDir ≠ "" →
  (∀ f, f ∈ ["status"; "headers"; "body"] → resolve fs entryDir ++ [f] ∈ qs) →
  files_same_except qs fs (final_state (storeEntryData entryDir ce seed fs)).
Proof.
  intros He Hqs. unfold storeEntryData, bind.
  pose proof (createAndWriteFile_same qs (Join [entryDir; "status"])
                (Itoa (StatusCode ce)) fs) as H1.
  destruct (createAndWriteFile_returns (Join [entryDir; "status"])
              (Itoa (StatusCode ce)) fs) as (e1 & fs1 & E1).
  pose proof (createAndWriteFile_kept (Join [entryDir; "status"])
                (Itoa (StatusCode ce)) fs) as [C1 _].
  rewrite E1 in *. cbn [final_state] in H1, C1.
  assert (files_same_except qs fs fs1) as S1.
  { apply H1. rewrite resolve_Join_entry by (done || apply file_name_status).
    apply Hqs. set_solver. }
  destruct e1; [done|].
  pose proof (createAndWriteFile_same qs (Join [entryDir; "headers"])
                (headersStr (range seed (Headers ce))) fs1) as H2.
  destruct (createAndWriteFile_returns (Join [entryDir; "headers"])
              (headersStr (range seed (Headers ce))) fs1) as (e2 & fs2 & E2).
  pose proof (createAndWriteFile_kept (Join [entryDir; "headers"])
                (headersStr (range seed (Headers ce))) fs1) as [C2 _].
  rewrite E2 in *. cbn [final_state] in H2, C2.
  assert (files_same_except qs fs fs2) as S2.
  { eapply files_same_except_trans; [exact S1|]. apply H2.
    rewrite resolve_Join_entry by (done || apply file_name_headers).
    rewrite (resolve_cwd fs fs1) by done. apply Hqs. set_solver. }
  destruct e2; [done|].
  pose proof (createAndWriteFile_same qs (Join [entryDir; "body"])
                (string_of (Body ce)) fs2) as H3.
  destruct (createAndWriteFile_returns (Join [entryDir; "body"])
              (string_of (Body ce)) fs2) as (e3 & fs3 & E3).
  rewrite E3 in *. cbn [final_state] in H3.
  assert (files_same_except qs fs fs3) as S3.
  { eapply files_same_except_trans; [exact S2|]. apply H3.
    rewrite resolve_Join_entry by (done || apply file_name_body).
    rewrite (resolve_cwd fs fs2) by congruence. apply Hqs. set_solver. }
  by destruct e3.
Qed.

Lemma storeEntryData_dirs entryDir ce seed fs :
  dirs_kept fs (final_state (storeEntryData entryDir ce seed fs)).
Proof.
  unfold storeEntryData, bind.
  pose proof (createAndWriteFile_dirs (Join [entryDir; "status"])
                (Itoa (StatusCode ce)) fs) as H1.
  destruct (createAndWriteFile_returns (Join [entryDir; "status"])
              (Itoa (StatusCode ce)) fs) as (e1 & fs1 & E1).
  rewrite E1 in *. simpl in H1. destruct e1; [done|].
  pose proof (createAndWriteFile_dirs (Join [entryDir; "headers"])
                (headersStr (range seed (Headers ce))) fs1) as H2.
  destruct (createAndWriteFile_returns (Join [entryDir; "headers"])
              (headersStr (range seed (Headers ce))) fs1) as (e2 & fs2 & E2).
  rewrite E2 in *. simpl in H2. destruct e2; [by eapply dirs_kept_trans|].
  pose proof (createAndWriteFile_dirs (Join [entryDir; "body"])
                (string_of (Body ce)) fs2) as H3.
  destruct (createAndWriteFile_returns (Join [entryDir; "body"])
              (string_of (Body ce)) fs2) as (e3 & fs3 & E3).
  rewrite E3 in *. simpl in H3.
  assert (dirs_kept fs fs3) by eauto using dirs_kept_trans.
  by destruct e3.
Qed.

(** However a [Set] ends, it changes no regular file but the three of its
    key. *)
Lemma DeskCache_Set_same dc key val seed fs :
  files_same_except (entry_files dc key fs) fs
    (final_state (DeskCache_Set dc key val seed fs)).
Proof.
  unfold DeskCache_Set, bind, call.
  destruct (MkdirAll (Join [DirPath dc; key]) fs) as [fs1 e] eqn:Hmk.
  pose proof (MkdirAll_spec _ _ _ _ Hmk) as Hdirs.
  destruct e as [e|]; [by apply only_dirs_added_same|].
  apply MkdirAll_made in Hmk as [Hne _].
  eapply files_same_except_trans; [by apply only_dirs_added_same|].
  apply storeEntryData_same; [done|].
  intros f Hf. rewrite (resolve_cwd fs fs1) by apply Hdirs.
  unfold entry_files, entry_file, entry_dir.
  repeat (apply elem_of_cons in Hf as [->|Hf]);
    [rewrite !elem_of_cons; auto..|by apply elem_of_nil in Hf].
Qed.

(** However a [Set] ends, every directory is still a directory. *)
Lemma DeskCache_Set_dirs dc key val seed fs :
  dirs_kept fs (final_state (DeskCache_Set dc key val seed fs)).
Proof.
  unfold DeskCache_Set, bind, call.
  destruct (MkdirAll (Join [DirPath dc; key]) fs) as [fs1 e] eqn:Hmk.
  apply MkdirAll_spec, only_dirs_added_dirs in Hmk.
  destruct e; [done|].
  eapply dirs_kept_trans; [exact Hmk|]. apply storeEntryData_dirs.
Qed.

End more_set.

Lemma Stat_file fs p q c :
  p ≠ "" → resolve fs p = q → q ≠ [] → tree fs !! q = Some (File c) →
  Stat fs p = inr {| IsDir := false |}.
Proof.
  intros Hp <- Hq Hc. unfold Stat. rewrite decide_False by done.
  destruct (resolve fs p); [done|]. simpl. by rewrite Hc.
Qed.

(** With a regular file where the entry directory should be, [Set] ends the
    process and leaves the disk as it is. *)
Lemma Set_exits_on_file dc key val seed fs :
  Stat fs (Join [DirPath dc; key]) = inr {| IsDir := false |} →
  DeskCache_Set dc key val seed fs = Exit fs.
Proof.
  intros Hstat. unfold DeskCache_Set, bind, call, MkdirAll. by rewrite Hstat.
Qed.




(** X3.  Keys do not disturb each other: however a [Set] for one key ends,
    [Get] for a key with another entry directory returns what it returned
    before. *)
Theorem set_leaves_other_keys dc key other val seed fs :
  entry_dir dc other fs ≠ entry_dir dc key fs →
  DeskCache_Get dc other (final_state (DeskCache_Set dc key val seed fs))
  = DeskCache_Get dc other fs.
Proof.
  intros Hne.
  destruct (DeskCache_Set_same dc key val seed fs) as [Hcwd Hsame].
  rewrite !DeskCache_Get_files_any. unfold entry_file.
  rewrite (entry_dir_cwd dc other fs _) by done.
  assert (∀ f, entry_dir dc other fs ++ [f] ∉ entry_files dc key fs) as Hout.
  { intros f. unfold entry_files, entry_file. rewrite !not_elem_of_cons.
    repeat split; try (intros [? _]%app_inj_tail; done). apply not_elem_of_nil. }
  by rewrite !Hsame.
Qed.

Lemma set_leaves_other_keys_witness :
  entry_dir dc_demo "GET-/users" fs_stored ≠ entry_dir dc_demo "GET-/posts" fs_stored
  ∧ DeskCache_Get dc_demo "GET-/users"
      (final_state (DeskCache_Set dc_demo "GET-/posts" entry_commas [] fs_stored))
    = DeskCache_Get dc_demo "GET-/users" fs_stored.
Proof.
  assert (entry_dir dc_demo "GET-/users" fs_stored
          ≠ entry_dir dc_demo "GET-/posts" fs_stored) as Hne.
  { vm_compute. discriminate. }
  split; [exact Hne|].
  exact (set_leaves_other_keys dc_demo "GET-/posts" "GET-/users" entry_commas []
           fs_stored Hne).
Defined.



(** Where a key was stored, the path of the key extended by the name of one
    of its files is a regular file. *)
Lemma Stat_below_stored dc key ce seed fs fs' f :
  DeskCache_Set dc key ce seed fs = Ok None fs' →
  f ∈ ["status"; "headers"; "body"] →
  Stat fs' (Join [DirPath dc; key +:+ "/" +:+ f]) = inr {| IsDir := false |}.
Proof.
  intros (Hj & fs1 & [Hcwd _] & ->)%DeskCache_Set_ok Hf.
  set (fs' := stored fs1 (entry_dir dc key fs) ce seed).
  assert (file_name f ∧ ∃ c, tree fs' !! (entry_dir dc key fs ++ [f]) = Some (File c))
    as [Hname [c Hc]].
  { repeat (apply elem_of_cons in Hf as [->|Hf]); [..|by apply elem_of_nil in Hf].
    - split; [apply file_name_status|]. eexists. apply stored_status.
    - split; [apply file_name_headers|]. eexists. apply stored_headers.
    - split; [apply file_name_body|]. eexists. apply stored_body. }
  assert (joined (DirPath dc) (key +:+ "/" +:+ f)
          = joined (DirPath dc) key +:+ "/" +:+ f) as Hjf.
  { unfold joined. case_decide; [done|]. by rewrite !append_assoc. }
  assert (resolve fs' (Join [DirPath dc; key +:+ "/" +:+ f])
          = entry_dir dc key fs ++ [f]) as Hres.
  { rewrite Join_dir by (rewrite Hjf; by destruct (joined (DirPath dc) key)).
    rewrite resolve_Clean, Hjf.
    destruct Hname as (? & ? & ?). rewrite resolve_name by done.
    unfold entry_dir. rewrite Join_dir, resolve_Clean by done.
    f_equal. apply resolve_cwd. exact Hcwd. }
  eapply Stat_file; [|exact Hres| |exact Hc].
  - rewrite Join_dir by (rewrite Hjf; by destruct (joined (DirPath dc) key)).
    apply Clean_not_empty.
  - apply list_app_singleton_not_nil.
Qed.

(** X5.  Once a key is stored, a [Set] for the key extended by [/status],
    [/headers] or [/body] ends the process: the entry directory it asks for
    is a regular file, [MkdirAll] fails and [Set] calls [log.Fatalf].  The
    disk is left as it is. *)
Theorem set_below_stored_key_exits dc key ce seed fs fs' f val' seed' :
  DeskCache_Set dc key ce seed fs = Ok None fs' →
  f ∈ ["status"; "headers"; "body"] →
  DeskCache_Set dc (key +:+ "/" +:+ f) val' seed' fs' = Exit fs'.
Proof.
  intros Hset Hf. unfold DeskCache_Set, bind, call, MkdirAll.
  by rewrite (Stat_below_stored dc key ce seed fs fs' f Hset Hf).
Qed.

Lemma set_below_stored_key_exits_witness :
  DeskCache_Set dc_demo "GET-/users" entry_demo [] fs_demo = Ok None fs_stored
  ∧ "status" ∈ ["status"; "headers"; "body"]
  ∧ DeskCache_Set dc_demo "GET-/users/status" entry_demo [] fs_stored = Exit fs_stored.
Proof.
  assert (DeskCache_Set dc_demo "GET-/users" entry_demo [] fs_demo
          = Ok None fs_stored) as Hset by (vm_compute; reflexivity).
  assert ("status" ∈ ["status"; "headers"; "body"]) as Hin.
  { apply elem_of_cons. by left. }
  split; [exact Hset|]. split; [exact Hin|].
  exact (set_below_stored_key_exits dc_demo "GET-/users" entry_demo [] fs_demo
           fs_stored "status" entry_demo [] Hset Hin).
Defined.

Section more_constructor.

Lemma NewDeskCache_made dirPath port ttl fs dc fs' :
  NewDeskCache dirPath port ttl fs = Ok (inr dc) fs' →
  dirPath ≠ "" ∧ lookup_node fs (resolve fs dirPath) = Some Dir
  ∧ dc = {| DirPath := dirPath; TTL := ttl |} ∧ fs' = fs.
Proof.
  destruct (decide (dirPath = "")) as [Hp|Hp].
  { destruct (NewDeskCache_not_dir dirPath port ttl fs) as [err ->]; [by left|].
    done. }
  destruct (lookup_node fs (resolve fs dirPath)) as [[c|]|] eqn:Hd.
  - destruct (NewDeskCache_not_dir dirPath port ttl fs) as [err ->]; [|done].
    right. by rewrite Hd.
  - rewrite NewDeskCache_dir by done. by intros [= <- <-].
  - destruct (NewDeskCache_not_dir dirPath port ttl fs) as [err ->]; [|done].
    right. by rewrite Hd.
Qed.

Lemma resolve_dot fs : resolve fs "." = cwd fs.
Proof. unfold resolve. simpl. apply rev_involutive. Qed.

Lemma Atoi_Itoa_clamp n : (Atoi (Itoa n)).1 = clamp_int n.
Proof.
  unfold clamp_int, MinInt, MaxInt, intSize.
  destruct n as [|p|p]; [done|..]; unfold Itoa; simpl Z.to_int;
    simpl NilEmpty.string_of_int; pose proof (digits_to_uint p) as Hd;
    destruct (to_uint_head p) as (c & s & Hs & Hm & Hp).
  - unfold Atoi. rewrite Hs in *. rewrite sign_body_digit, Hd by done.
    unfold intSize. simpl negb. rewrite andb_true_l, andb_false_l.
    destruct (Z.leb_spec (2 ^ (64 - 1)) (Z.pos p)); simpl; lia.
  - unfold Atoi. cbn [sign_body]. rewrite Hs. rewrite <- Hs, Hd.
    unfold intSize. simpl negb. rewrite andb_false_l, andb_true_l.
    destruct (Z.ltb_spec (2 ^ (64 - 1)) (Z.pos p)); simpl; lia.
Qed.

End more_constructor.

(** X6.  Disk persistence: an entry with storable headers that was set
    through one cache is found, unchanged, by a cache made afresh on the
    same root directory, whatever port and TTL the new one is given. *)
Theorem disk_persistence dirPath port ttl port' ttl' key ce seed fs dc fs' :
  NewDeskCache dirPath port ttl fs = Ok (inr dc) fs →
  is_int (StatusCode ce) →
  storable (Headers ce) →
  DeskCache_Set dc key ce seed fs = Ok None fs' →
  ∃ dc', NewDeskCache dirPath port' ttl' fs' = Ok (inr dc') fs'
         ∧ DeskCache_Get dc' key fs' = (Some ce, true).
Proof.
  intros (Hp & Hd & -> & _)%NewDeskCache_made Hint Hst Hset.
  exists {| DirPath := dirPath; TTL := ttl' |}.
  pose proof (DeskCache_Set_dirs {| DirPath := dirPath; TTL := ttl |}
                key ce seed fs) as [Hcwd Hdirs].
  rewrite Hset in Hcwd, Hdirs. simpl in Hcwd, Hdirs.
  split.
  - apply NewDeskCache_dir; [done|].
    rewrite (resolve_cwd fs fs') by done. by apply Hdirs.
  - change (DeskCache_Get {| DirPath := dirPath; TTL := ttl' |} key fs')
      with (DeskCache_Get {| DirPath := dirPath; TTL := ttl |} key fs').
    rewrite (Get_after_Set _ _ _ _ _ _ Hset).
    rewrite Atoi_Itoa, parseHeaders_range by done. by destruct ce.
Qed.

Lemma disk_persistence_witness :
  NewDeskCache "cache" ":8080" (TTL dc_demo) fs_demo = Ok (inr dc_demo) fs_demo
  ∧ DeskCache_Set dc_demo "GET-/users" entry_demo [] fs_demo = Ok None fs_stored
  ∧ ∃ dc', NewDeskCache "cache" ":9090" 5 fs_stored = Ok (inr dc') fs_stored
           ∧ DeskCache_Get dc' "GET-/users" fs_stored = (Some entry_demo, true).
Proof.
  assert (NewDeskCache "cache" ":8080" (TTL dc_demo) fs_demo
          = Ok (inr dc_demo) fs_demo) as Hnew by (vm_compute; reflexivity).
  assert (DeskCache_Set dc_demo "GET-/users" entry_demo [] fs_demo
          = Ok None fs_stored) as Hset by (vm_compute; reflexivity).
  assert (is_int (StatusCode entry_demo)) as Hint.
  { unfold is_int. vm_compute. split; discriminate. }
  split; [exact Hnew|]. split; [exact Hset|].
  exact (disk_persistence "cache" ":8080" (TTL dc_demo) ":9090" 5 "GET-/users"
           entry_demo [] fs_demo dc_demo fs_stored Hnew Hint
           storable_entry_demo Hset).
Defined.



(** X8.  [NewCachingProxyServer] gives the server a cache rooted at the
    working directory with a TTL of one hour, whatever [cacheTTL] it is
    called with, and leaves the disk alone; it needs the working directory
    to be there. *)
Theorem new_server_ignores_ttl port origin cacheTTL fs :
  lookup_node fs (cwd fs) = Some Dir →
  NewCachingProxyServer port origin cacheTTL fs
  = Ok (inr {| Port := port; Origin := origin;
               Cache_ := {| DirPath := "."; TTL := 1 * Hour |} |}) fs.
Proof.
  intros Hd. unfold NewCachingProxyServer, bind.
  assert (NewDeskCache "." port (1 * Hour) fs
          = Ok (inr {| DirPath := "."; TTL := 1 * Hour |}) fs) as ->.
  { apply NewDeskCache_dir; [discriminate|]. rewrite resolve_dot. exact Hd. }
  reflexivity.
Qed.

Lemma new_server_ignores_ttl_witness :
  lookup_node fs_demo (cwd fs_demo) = Some Dir
  ∧ NewCachingProxyServer ":8080" "http://dummyjson.com" 5 fs_demo
    = Ok (inr {| Port := ":8080"; Origin := "http://dummyjson.com";
                 Cache_ := {| DirPath := "."; TTL := 1 * Hour |} |}) fs_demo.
Proof.
  assert (lookup_node fs_demo (cwd fs_demo) = Some Dir) as Hd.
  { vm_compute. reflexivity. }
  split; [exact Hd|].
  exact (new_server_ignores_ttl ":8080" "http://dummyjson.com" 5 fs_demo Hd).
Defined.

(** X9.  The status code [Get] returns for a status file that holds the
    decimal text of a number is that number when it is an [int], and the
    nearest bound of [int] when it is not: the range error of the
    conversion is dropped like the syntax error. *)
Theorem get_status_clamped dc key fs n h b :
  ReadFile fs (Join [DirPath dc; key; "status"]) = inr (bytes_of (Itoa n)) →
  ReadFile fs (Join [DirPath dc; key; "headers"]) = inr h →
  ReadFile fs (Join [DirPath dc; key; "body"]) = inr b →
  ∃ ce, DeskCache_Get dc key fs = (Some ce, true)
        ∧ StatusCode ce = clamp_int n.
Proof.
  intros Hs Hh Hb. unfold DeskCache_Get. rewrite Hs, Hh, Hb.
  eexists. split; [done|]. simpl.
  by rewrite string_of_bytes_of, Atoi_Itoa_clamp.
Qed.

Lemma get_status_clamped_witness :
  let fs := write_file fs_stored (users_file "status") "99999999999999999999" in
  ReadFile fs (Join [DirPath dc_demo; "GET-/users"; "status"])
    = inr (bytes_of (Itoa 99999999999999999999))
  ∧ ∃ ce, DeskCache_Get dc_demo "GET-/users" fs = (Some ce, true)
          ∧ StatusCode ce = 9223372036854775807.
Proof.
  cbv zeta.
  assert (ReadFile (write_file fs_stored (users_file "status") "99999999999999999999")
            (Join [DirPath dc_demo; "GET-/users"; "status"])
          = inr (bytes_of (Itoa 99999999999999999999))) as Hs.
  { vm_compute. reflexivity. }
  split; [exact Hs|].
  refine (get_status_clamped dc_demo "GET-/users" _ 99999999999999999999
            _ _ Hs _ _); vm_compute; reflexivity.
Defined.

(* ===================================================================== *)
(** * More on the handler *)
(* ===================================================================== *)

Section copy_facts.
Implicit Types (h dis src : Header).

Lemma values_Add h name v k :
  values (Add h name v) k
  = if decide (k = CanonicalMIMEHeaderKey name)
    then values h k ++ [v] else values h k.
Proof.
  unfold Add, values at 1. case_decide as Hk.
  - subst k. by rewrite lookup_insert_eq.
  - by rewrite lookup_insert_ne.
Qed.

Lemma values_add_record h name vv k :
  CanonicalMIMEHeaderKey name = name →
  values (add_record h (name, vv)) k
  = if decide (k = name) then values h k ++ vv else values h k.
Proof.
  intros Hc. unfold add_record. simpl. revert h.
  induction vv as [|v vv IH]; intros h.
  - simpl. case_decide; [by rewrite app_nil_r|done].
  - cbn [fold_left]. rewrite IH, values_Add, Hc.
    case_decide; [|done]. by rewrite <- app_assoc.
Qed.

Lemma values_add_records entries h k :
  NoDup entries.*1 →
  Forall (λ kvv, CanonicalMIMEHeaderKey kvv.1 = kvv.1) entries →
  values (fold_left add_record entries h) k
  = values h k ++ default [] (list_to_map (M := gmap string (list string)) entries !! k).
Proof.
  revert h. induction entries as [|[name vv] entries IH]; intros h Hnd Hc.
  - simpl. by rewrite lookup_empty, app_nil_r.
  - inversion Hnd as [|?? Hname Hnd']; inversion Hc as [|?? Hcn Hc']; subst.
    cbn [fold_left]. rewrite IH, values_add_record by done.
    cbn [list_to_map foldr]. simpl.
    destruct (decide (k = name)) as [->|Hne].
    + rewrite lookup_insert_eq. simpl.
      rewrite (not_elem_of_list_to_map_1 _ name) by done.
      simpl. by rewrite app_nil_r.
    + by rewrite lookup_insert_ne.
Qed.

Lemma copyHeaders_records dis src seed :
  copyHeaders dis src seed = fold_left add_record (range seed src) dis.
Proof. done. Qed.

End copy_facts.

(** X10.  [copyHeaders] appends and never overwrites: for a source whose
    names are in canonical form, every header of the destination has
    afterwards its old values followed by the values of the source, in
    their order, whatever order the source map is iterated in. *)
Theorem copy_headers_appends dis src seed k :
  canonical_names src →
  values (copyHeaders dis src seed) k = values dis k ++ values src k.
Proof.
  intros Hsrc. rewrite copyHeaders_records, values_add_records.
  - by rewrite range_to_map.
  - apply range_NoDup.
  - apply Forall_forall. intros [name vv] Hin.
    apply elem_of_range in Hin. by apply Hsrc in Hin.
Qed.

Lemma copy_headers_appends_witness :
  canonical_names (Headers entry_demo)
  ∧ values (copyHeaders (marker_only "HIT") (Headers entry_demo) [1%nat]) "Vary"
    = values (marker_only "HIT") "Vary" ++ ["Accept"; "Origin"].
Proof.
  assert (canonical_names (Headers entry_demo)) as Hc.
  { unfold canonical_names, entry_demo. simpl.
    apply map_Forall_insert_2; [reflexivity|].
    apply map_Forall_insert_2; [reflexivity|]. apply map_Forall_empty. }
  split; [exact Hc|].
  exact (copy_headers_appends (marker_only "HIT") (Headers entry_demo) [1%nat]
           "Vary" Hc).
Defined.

Section reply_facts.
Implicit Types (rw : ResponseWriter).

Lemma final_code_range code :
  final_code code = true →
  (code <? 100) || (999 <? code) = false
  ∧ (100 <=? code) && (code <=? 199) && negb (code =? 101) = false.
Proof.
  unfold final_code. rewrite !andb_true_iff, negb_true_iff.
  intros [[H1 H2] ->]. split; [|done].
  apply orb_false_iff. split; [apply Z.ltb_ge|apply Z.ltb_ge]; lia.
Qed.

Lemma WriteHeader_final code rw :
  wroteHeader rw = None → final_code code = true →
  WriteHeader code rw
  = Ok () (mkRW (handlerHeader rw) (interim rw)
                (Some (code, handlerHeader rw)) (written rw)).
Proof.
  intros Hw [H1 H2]%final_code_range. unfold WriteHeader.
  by rewrite Hw, H1, H2.
Qed.

Lemma WriteHeader_invalid code rw :
  wroteHeader rw = None → code < 100 ∨ 999 < code →
  WriteHeader code rw = Panic rw.
Proof.
  intros Hw Hc. unfold WriteHeader. rewrite Hw.
  assert ((code <? 100) || (999 <? code) = true) as ->; [|done].
  apply orb_true_iff. destruct Hc; [left|right]; by apply Z.ltb_lt.
Qed.

Lemma Write_after_header b hh im code hdr wr :
  Write b (mkRW hh im (Some (code, hdr)) wr)
  = Ok () (mkRW hh im (Some (code, hdr)) (wr ++ body_sent code b)).
Proof.
  unfold Write, bind, WriteHeader, body_sent. simpl.
  destruct (bodyAllowedForStatus code); [done|]. by rewrite app_nil_r.
Qed.

Lemma HSet_marker v : HSet ∅ "X-Cache" v = marker_only v.
Proof. done. Qed.

(** The reply written under a marker on a fresh writer. *)
Lemma reply_fresh v code hdr body seed :
  final_code code = true →
  (WriteHeader code ;;;
   editHeader (λ h, copyHeaders h hdr seed) ;;;
   Write body) (mkRW (marker_only v) [] None [])
  = Ok () (replied v code hdr body seed).
Proof.
  intros Hc. unfold bind at 1. rewrite WriteHeader_final by done.
  unfold bind, editHeader. cbn [handlerHeader interim wroteHeader written].
  by rewrite Write_after_header.
Qed.

Lemma Error_fresh :
  Error "error forwarding request" StatusInternalServerError
    (mkRW (marker_only "MISS") [] None [])
  = Ok () replied_error.
Proof. vm_compute. reflexivity. Qed.

End reply_facts.

Section more_handler.
Context {Cache Store : Type}.
Variable cache_get : Cache → string → Store → option CacheEntry * bool.
Variable cache_put : Cache → string → CacheEntry → M Store ().
Variable client : Client.
Implicit Types (wd : World Store) (r : Request) (cps : CachingProxyServer Cache).

Lemma on_w_seq {A B} (m1 : M ResponseWriter A) (m2 : M ResponseWriter B) wd :
  (on_w m1 ;;; on_w m2) wd = on_w (m1 ;;; m2) wd.
Proof. unfold bind, on_w. by destruct (m1 (w wd)). Qed.

Lemma on_w_Ok {A} (m : M ResponseWriter A) wd a rw' :
  m (w wd) = Ok a rw' →
  on_w m wd = Ok a (mkWorld (store wd) rw' (wire wd) (logs wd)).
Proof. intros Hm. unfold on_w. by rewrite Hm. Qed.

Lemma on_w_Panic {A} (m : M ResponseWriter A) wd rw' :
  m (w wd) = Panic rw' →
  on_w m wd = Panic (mkWorld (store wd) rw' (wire wd) (logs wd)).
Proof. intros Hm. unfold on_w. by rewrite Hm. Qed.

Lemma marked_fresh line v wd :
  fresh wd → w (marked line v wd) = mkRW (marker_only v) [] None [].
Proof. unfold fresh, marked. by intros ->. Qed.

Lemma hit_reply_seq val seed wd :
  hit_reply (Some val) seed wd
  = on_w (WriteHeader (StatusCode val) ;;;
          editHeader (λ h, copyHeaders h (Headers val) seed) ;;;
          Write (Body val)) wd.
Proof.
  unfold hit_reply. rewrite <- on_w_seq. unfold bind at 1 3.
  destruct (on_w (WriteHeader (StatusCode val)) wd); [|done..].
  apply on_w_seq.
Qed.

(** The handler on the way from the cache, with a fresh writer and an
    entry whose status code can be written. *)
Lemma hit_run cps r seed wd val :
  fresh wd →
  served_from_cache cache_get cps r wd = true →
  (cache_get (Cache_ cps) (cacheKey r) (store wd)).1 = Some val →
  final_code (StatusCode val) = true →
  handleRequests cache_get cache_put client cps r seed wd
  = Ok () (mkWorld (store wd)
             (replied "HIT" (StatusCode val) (Headers val) (Body val) seed)
             (wire wd) (logs wd ++ [Sprintln ["HIT:  "; cacheKey r]])).
Proof.
  intros Hfresh Hhit Hval Hcode. rewrite handleRequests_unfold.
  unfold served_from_cache in Hhit. rewrite Hhit, marker_step, Hval.
  rewrite hit_reply_seq.
  erewrite on_w_Ok; [done|].
  rewrite marked_fresh by done. by apply reply_fresh.
Qed.

(** The same with a status code that cannot be written: the handler
    panics before anything is sent. *)
Lemma hit_panic cps r seed wd val :
  fresh wd →
  served_from_cache cache_get cps r wd = true →
  (cache_get (Cache_ cps) (cacheKey r) (store wd)).1 = Some val →
  StatusCode val < 100 ∨ 999 < StatusCode val →
  handleRequests cache_get cache_put client cps r seed wd
  = Panic (mkWorld (store wd) (mkRW (marker_only "HIT") [] None [])
             (wire wd) (logs wd ++ [Sprintln ["HIT:  "; cacheKey r]])).
Proof.
  intros Hfresh Hhit Hval Hcode. rewrite handleRequests_unfold.
  unfold served_from_cache in Hhit. rewrite Hhit, marker_step, Hval.
  unfold hit_reply. unfold bind at 1.
  erewrite on_w_Panic; [done|].
  rewrite marked_fresh by done. by apply WriteHeader_invalid.
Qed.

Lemma error_run wd :
  w wd = mkRW (marker_only "MISS") [] None [] →
  on_w (Error "error forwarding request" StatusInternalServerError) wd
  = Ok () (mkWorld (store wd) replied_error (wire wd) (logs wd)).
Proof. intros Hw. erewrite on_w_Ok; [done|]. rewrite Hw. apply Error_fresh. Qed.

(** The handler on the way to the origin when a step of the fetch fails. *)
Lemma miss_error_run cps r seed wd :
  fresh wd →
  served_from_cache cache_get cps r wd = false →
  fetched client (Origin cps) r = None →
  handleRequests cache_get cache_put client cps r seed wd
  = Ok () (mkWorld (store wd) replied_error
             (wire wd ++ option_list (upstream_request client (Origin cps) r))
             (logs wd ++ [Sprintln ["MISS: "; cacheKey r]])).
Proof.
  intros Hfresh Hmiss Hfetch. rewrite handleRequests_unfold.
  unfold served_from_cache in Hmiss. rewrite Hmiss, marker_step.
  pose proof (marked_fresh (Sprintln ["MISS: "; cacheKey r]) "MISS" wd Hfresh)
    as Hw.
  set (wd0 := marked _ _ wd) in *.
  unfold miss_reply, fetched, upstream_request in *.
  destruct (NewRequest client _ _ _) as [req|].
  - unfold bind.
    change (client_Do client req wd0)
      with (Ok (Do client req)
              (mkWorld (store wd0) (w wd0) (wire wd0 ++ [req]) (logs wd0))).
    cbv beta iota.
    destruct (Do client req) as [resp|].
    + destruct (ReadAll (RespBody resp)); [done|]. by rewrite error_run.
    + by rewrite error_run.
  - rewrite error_run by done. unfold wd0, marked. cbn [store wire logs option_list].
    by rewrite app_nil_r.
Qed.

(** The handler on the way to the origin when the fetch succeeds with a
    status code that can be written: the state in which the entry is
    stored, or in which the handler returns for a request that is no GET. *)
Lemma miss_run cps r seed wd req code hdr body :
  fresh wd →
  served_from_cache cache_get cps r wd = false →
  upstream_request client (Origin cps) r = Some req →
  fetched client (Origin cps) r = Some (code, hdr, body) →
  final_code code = true →
  let wd1 := mkWorld (store wd) (replied "MISS" code hdr body seed)
               (wire wd ++ [req]) (logs wd ++ [Sprintln ["MISS: "; cacheKey r]]) in
  handleRequests cache_get cache_put client cps r seed wd
  = if bool_decide (Method r = "GET")
    then on_store (cache_put (Cache_ cps) (cacheKey r)
                     {| StatusCode := code; Body := body; Headers := hdr |}) wd1
    else Ok () wd1.
Proof.
  intros Hfresh Hmiss Hreq Hfetch Hcode. cbv zeta.
  rewrite handleRequests_unfold.
  unfold served_from_cache in Hmiss. rewrite Hmiss, marker_step.
  unfold miss_reply, fetched in *. unfold upstream_request in *.
  rewrite Hreq in *. unfold bind at 1. unfold client_Do at 1.
  destruct (Do client req) as [resp|]; [|done].
  destruct (ReadAll (RespBody resp)) as [body'|]; [|done].
  injection Hfetch as -> -> ->.
  set (wd0 := mkWorld _ _ _ _).
  assert (∀ k : M (World Store) (),
            (on_w (WriteHeader code) ;;;
             on_w (editHeader (λ h, copyHeaders h hdr seed)) ;;;
             on_w (Write body) ;;; k) wd0
            = k (mkWorld (store wd) (replied "MISS" code hdr body seed)
                   (wire wd ++ [req])
                   (logs wd ++ [Sprintln ["MISS: "; cacheKey r]]))) as Hk.
  { intros k.
    pose proof (reply_fresh "MISS" code hdr body seed Hcode) as Hr.
    unfold bind in Hr |- *. unfold on_w. unfold wd0, marked, fresh in *.
    cbn [w store wire logs] in *. rewrite Hfresh.
    cbn [handlerHeader interim wroteHeader written freshRW].
    change (HSet ∅ "X-Cache" "MISS") with (marker_only "MISS").
    destruct (WriteHeader code _) as [[] rw1| |]; [|done..].
    cbn [w store wire logs] in *.
    destruct (editHeader _ rw1) as [[] rw2| |]; [|done..].
    cbn [w store wire logs] in *.
    destruct (Write body rw2) as [[] rw3| |]; [|done..].
    cbn [w store wire logs]. by injection Hr as ->. }
  rewrite Hk. by destruct (bool_decide _).
Qed.

End more_handler.

(** X11.  When a step of the upstream fetch fails (the request cannot be
    built, the transport fails, or the body cannot be read), a request that
    is not served from the cache gets the reply of [http.Error]: status 500
    with the text [error forwarding request], marked [X-Cache: MISS]; and
    nothing is stored, for a GET as for any other method. *)
Theorem handler_upstream_failure {Cache Store : Type}
    (cache_get : Cache → string → Store → option CacheEntry * bool)
    (cache_put : Cache → string → CacheEntry → M Store ())
    (client : Client) (cps : CachingProxyServer Cache)
    (r : Request) (seed : list nat) (wd : World Store) :
  fresh wd →
  served_from_cache cache_get cps r wd = false →
  fetched client (Origin cps) r = None →
  ∃ wd', handleRequests cache_get cache_put client cps r seed wd = Ok () wd'
         ∧ store wd' = store wd
         ∧ wroteHeader (w wd') = Some (500, error_headers)
         ∧ HGet error_headers "X-Cache" = "MISS"
         ∧ written (w wd') = bytes_of ("error forwarding request" +:+ NL).
Proof.
  intros Hfresh Hmiss Hfetch. eexists. split.
  - by apply miss_error_run.
  - done.
Qed.

Lemma handler_upstream_failure_witness :
  fresh (world fs_demo)
  ∧ served_from_cache DeskCache_Get cps_demo req_demo (world fs_demo) = false
  ∧ fetched client_down (Origin cps_demo) req_demo = None
  ∧ ∃ wd', handleRequests_disk client_down [] cps_demo req_demo [] (world fs_demo)
             = Ok () wd'
           ∧ store wd' = fs_demo
           ∧ wroteHeader (w wd') = Some (500, error_headers).
Proof.
  assert (served_from_cache DeskCache_Get cps_demo req_demo (world fs_demo) = false)
    as Hmiss by (vm_compute; reflexivity).
  split; [reflexivity|]. split; [exact Hmiss|]. split; [reflexivity|].
  destruct (handler_upstream_failure DeskCache_Get (disk_put []) client_down
              cps_demo req_demo [] (world fs_demo) eq_refl Hmiss eq_refl)
    as (wd' & Hrun & Hstore & Hw & _).
  exists wd'. split; [exact Hrun|]. split; [exact Hstore|exact Hw].
Defined.

(** X12.  A reply from the cache, on a fresh writer and for an entry whose
    status code is a final status: the handler returns, nothing goes to the
    origin, the cache is left alone, and the response has the status of the
    entry, its body (where the status allows one), and [X-Cache: HIT] as
    its only header of the handler's: the headers of the entry are copied
    into the header map after the header was written and are not part of
    the response. *)
Theorem handler_hit_response {Cache Store : Type}
    (cache_get : Cache → string → Store → option CacheEntry * bool)
    (cache_put : Cache → string → CacheEntry → M Store ())
    (client : Client) (cps : CachingProxyServer Cache)
    (r : Request) (seed : list nat) (wd : World Store) (val : CacheEntry) :
  fresh wd →
  served_from_cache cache_get cps r wd = true →
  (cache_get (Cache_ cps) (cacheKey r) (store wd)).1 = Some val →
  final_code (StatusCode val) = true →
  ∃ wd', handleRequests cache_get cache_put client cps r seed wd = Ok () wd'
         ∧ store wd' = store wd
         ∧ wire wd' = wire wd
         ∧ sent (w wd') = [(StatusCode val, marker_only "HIT")]
         ∧ written (w wd') = body_sent (StatusCode val) (Body val)
         ∧ handlerHeader (w wd') = copyHeaders (marker_only "HIT") (Headers val) seed.
Proof.
  intros Hfresh Hhit Hval Hcode. eexists. split.
  - by apply hit_run.
  - done.
Qed.

Lemma handler_hit_response_witness :
  fresh (world fs_stored)
  ∧ served_from_cache DeskCache_Get cps_demo req_demo (world fs_stored) = true
  ∧ (DeskCache_Get dc_demo (cacheKey req_demo) fs_stored).1 = Some entry_demo
  ∧ final_code (StatusCode entry_demo) = true
  ∧ ∃ wd', handleRequests_disk client_demo [] cps_demo req_demo [] (world fs_stored)
             = Ok () wd'
           ∧ wire wd' = []
           ∧ sent (w wd') = [(200, marker_only "HIT")]
           ∧ written (w wd') = bytes_of "{}".
Proof.
  assert (served_from_cache DeskCache_Get cps_demo req_demo (world fs_stored) = true)
    as Hhit by (vm_compute; reflexivity).
  assert ((DeskCache_Get dc_demo (cacheKey req_demo) fs_stored).1 = Some entry_demo)
    as Hval by (vm_compute; reflexivity).
  split; [reflexivity|]. split; [exact Hhit|]. split; [exact Hval|].
  split; [reflexivity|].
  destruct (handler_hit_response DeskCache_Get (disk_put []) client_demo
              cps_demo req_demo [] (world fs_stored) entry_demo
              eq_refl Hhit Hval eq_refl)
    as (wd' & Hrun & _ & Hwire & Hsent & Hbody & _).
  exists wd'. split; [exact Hrun|]. split; [exact Hwire|].
  split; [exact Hsent|exact Hbody].
Defined.

(** X13.  A reply from the origin, on a fresh writer and for an answer with
    a final status: one request goes to the origin; the response has the
    status of the answer, its body (where the status allows one), and
    [X-Cache: MISS] as its only header of the handler's (the headers of the
    answer are copied too late to be sent); and for a GET the cache is
    asked to store exactly the status, headers and body of the answer under
    the key of the request, while for another method it is left alone. *)
Theorem handler_miss_response {Cache Store : Type}
    (cache_get : Cache → string → Store → option CacheEntry * bool)
    (cache_put : Cache → string → CacheEntry → M Store ())
    (client : Client) (cps : CachingProxyServer Cache)
    (r : Request) (seed : list nat) (wd : World Store)
    (req : UpstreamRequest) (code : Z) (hdr : Header) (body : list byte) :
  fresh wd →
  served_from_cache cache_get cps r wd = false →
  upstream_request client (Origin cps) r = Some req →
  fetched client (Origin cps) r = Some (code, hdr, body) →
  final_code code = true →
  let wd' := final_state (handleRequests cache_get cache_put client cps r seed wd) in
  wire wd' = wire wd ++ [req]
  ∧ sent (w wd') = [(code, marker_only "MISS")]
  ∧ written (w wd') = body_sent code body
  ∧ store wd'
    = if bool_decide (Method r = "GET")
      then final_state (cache_put (Cache_ cps) (cacheKey r)
                          {| StatusCode := code; Body := body; Headers := hdr |}
                          (store wd))
      else store wd.
Proof.
  intros Hfresh Hmiss Hreq Hfetch Hcode. cbv zeta.
  rewrite (miss_run cache_get cache_put client cps r seed wd req code hdr body)
    by done.
  destruct (bool_decide (Method r = "GET")); [|done].
  unfold on_store. cbn [store w wire logs].
  by destruct (cache_put _ _ _ _).
Qed.

Lemma handler_miss_response_witness :
  let wd' := final_state (handleRequests_disk client_demo [] cps_demo req_demo []
                            (world fs_demo)) in
  fresh (world fs_demo)
  ∧ served_from_cache DeskCache_Get cps_demo req_demo (world fs_demo) = false
  ∧ fetched client_demo (Origin cps_demo) req_demo
    = Some (200, Headers entry_demo, Body entry_demo)
  ∧ sent (w wd') = [(200, marker_only "MISS")]
  ∧ store wd' = fs_stored.
Proof.
  assert (served_from_cache DeskCache_Get cps_demo req_demo (world fs_demo) = false)
    as Hmiss by (vm_compute; reflexivity).
  cbv zeta. split; [reflexivity|]. split; [exact Hmiss|]. split; [reflexivity|].
  destruct (handler_miss_response DeskCache_Get (disk_put []) client_demo
              cps_demo req_demo [] (world fs_demo) _ 200 (Headers entry_demo)
              (Body entry_demo) eq_refl Hmiss eq_refl eq_refl eq_refl)
    as (_ & Hsent & _ & Hstore).
  split; [exact Hsent|]. refine (eq_trans Hstore _). vm_compute. reflexivity.
Defined.

(** X14.  An entry whose status code is outside 100..999 cannot be served:
    the handler panics in [WriteHeader], before any response is sent, and
    the cache is left as it is (so the next request for the key panics
    again).  Such an entry is what [Get] returns for a status file that
    holds no number. *)
Theorem handler_bad_status_panics {Cache Store : Type}
    (cache_get : Cache → string → Store → option CacheEntry * bool)
    (cache_put : Cache → string → CacheEntry → M Store ())
    (client : Client) (cps : CachingProxyServer Cache)
    (r : Request) (seed : list nat) (wd : World Store) (val : CacheEntry) :
  fresh wd →
  served_from_cache cache_get cps r wd = true →
  (cache_get (Cache_ cps) (cacheKey r) (store wd)).1 = Some val →
  StatusCode val < 100 ∨ 999 < StatusCode val →
  ∃ wd', handleRequests cache_get cache_put client cps r seed wd = Panic wd'
         ∧ sent (w wd') = []
         ∧ store wd' = store wd
         ∧ wire wd' = wire wd.
Proof.
  intros Hfresh Hhit Hval Hcode. eexists. split.
  - by eapply hit_panic.
  - done.
Qed.

Lemma handler_bad_status_panics_witness :
  fresh (world fs_zero_status)
  ∧ served_from_cache DeskCache_Get cps_demo req_demo (world fs_zero_status) = true
  ∧ (DeskCache_Get dc_demo (cacheKey req_demo) fs_zero_status).1 = Some entry_zero
  ∧ StatusCode entry_zero < 100
  ∧ ∃ wd', handleRequests_disk client_demo [] cps_demo req_demo []
             (world fs_zero_status) = Panic wd'
           ∧ sent (w wd') = [].
Proof.
  assert (served_from_cache DeskCache_Get cps_demo req_demo (world fs_zero_status)
          = true) as Hhit by (vm_compute; reflexivity).
  assert ((DeskCache_Get dc_demo (cacheKey req_demo) fs_zero_status).1
          = Some entry_zero) as Hval by (vm_compute; reflexivity).
  assert (StatusCode entry_zero < 100) as Hlt by (vm_compute; reflexivity).
  split; [reflexivity|]. split; [exact Hhit|]. split; [exact Hval|].
  split; [exact Hlt|].
  destruct (handler_bad_status_panics DeskCache_Get (disk_put []) client_demo
              cps_demo req_demo [] (world fs_zero_status) entry_zero
              eq_refl Hhit Hval (or_introl Hlt))
    as (wd' & Hrun & Hsent & _).
  exists wd'. split; [exact Hrun|exact Hsent].
Defined.

Lemma final_code_is_int code : final_code code = true → is_int code.
Proof.
  unfold final_code, is_int, MinInt, MaxInt, intSize.
  rewrite !andb_true_iff. intros [[H1 H2] _].
  apply Z.leb_le in H1, H2. simpl. lia.
Qed.

(** [Get] after a [Set] of storable headers and an [int] status that
    returned no error. *)
Lemma Get_after_Set_storable dc key ce seed fs fs' :
  is_int (StatusCode ce) → storable (Headers ce) →
  DeskCache_Set dc key ce seed fs = Ok None fs' →
  DeskCache_Get dc key fs' = (Some ce, true).
Proof.
  intros Hint Hst Hset. rewrite (Get_after_Set _ _ _ _ _ _ Hset).
  rewrite Atoi_Itoa, parseHeaders_range by done. by destruct ce.
Qed.

(** X15.  The disk cache at work: a GET that is not in the cache is
    fetched from the origin and stored; when the answer has a final status
    and storable headers and the [Set] returns no error, the next GET for
    the same method and path is served from the cache, without a request to
    the origin, with the status and the body of the answer. *)
Theorem disk_miss_then_hit (client : Client) (put_seed : list nat)
    (cps : CachingProxyServer DeskCache) (r : Request) (seed1 seed2 : list nat)
    (wd : World FS) (req : UpstreamRequest) (code : Z) (hdr : Header)
    (body : list byte) (fs1 : FS) :
  fresh wd →
  Method r = "GET" →
  served_from_cache DeskCache_Get cps r wd = false →
  upstream_request client (Origin cps) r = Some req →
  fetched client (Origin cps) r = Some (code, hdr, body) →
  final_code code = true →
  storable hdr →
  DeskCache_Set (Cache_ cps) (cacheKey r)
    {| StatusCode := code; Body := body; Headers := hdr |} put_seed (store wd)
    = Ok None fs1 →
  ∃ wd1,
    handleRequests_disk client put_seed cps r seed1 wd = Ok () wd1
    ∧ store wd1 = fs1
    ∧ wire wd1 = wire wd ++ [req]
    ∧ ∀ wd2, fresh wd2 → store wd2 = fs1 →
        ∃ wd3, handleRequests_disk client put_seed cps r seed2 wd2 = Ok () wd3
               ∧ wire wd3 = wire wd2
               ∧ store wd3 = fs1
               ∧ sent (w wd3) = [(code, marker_only "HIT")]
               ∧ written (w wd3) = body_sent code body.
Proof.
  intros Hfresh Hget Hmiss Hreq Hfetch Hcode Hst Hset.
  assert (handleRequests_disk client put_seed cps r seed1 wd
          = Ok () (mkWorld fs1 (replied "MISS" code hdr body seed1)
                     (wire wd ++ [req])
                     (logs wd ++ [Sprintln ["MISS: "; cacheKey r]]))) as Hrun1.
  { unfold handleRequests_disk.
    rewrite (miss_run DeskCache_Get (disk_put put_seed) client cps r seed1 wd
               req code hdr body) by done.
    rewrite bool_decide_eq_true_2 by done.
    unfold on_store, disk_put, bind. cbn [store w wire logs]. by rewrite Hset. }
  eexists. split; [exact Hrun1|]. split; [done|]. split; [done|].
  intros wd2 Hfresh2 Hstore2. unfold handleRequests_disk.
  pose proof (Get_after_Set_storable (Cache_ cps) (cacheKey r)
                {| StatusCode := code; Body := body; Headers := hdr |}
                put_seed (store wd) fs1
                (final_code_is_int code Hcode) Hst Hset) as Hfound.
  assert (served_from_cache DeskCache_Get cps r wd2 = true) as Hhit.
  { unfold served_from_cache. rewrite Hstore2, Hfound. simpl.
    by apply bool_decide_eq_true_2. }
  rewrite (hit_run DeskCache_Get (disk_put put_seed) client cps r seed2 wd2
             {| StatusCode := code; Body := body; Headers := hdr |});
    [|done|done|by rewrite Hstore2, Hfound|done].
  eexists. split; [done|]. by rewrite Hstore2.
Qed.

Lemma disk_miss_then_hit_witness :
  fresh (world fs_demo)
  ∧ served_from_cache DeskCache_Get cps_demo req_demo (world fs_demo) = false
  ∧ storable (Headers entry_demo)
  ∧ DeskCache_Set dc_demo (cacheKey req_demo) entry_demo [] fs_demo = Ok None fs_stored
  ∧ ∃ wd1,
      handleRequests_disk client_demo [] cps_demo req_demo [] (world fs_demo)
        = Ok () wd1
      ∧ store wd1 = fs_stored
      ∧ ∃ wd3, handleRequests_disk client_demo [] cps_demo req_demo [1%nat]
                 (world fs_stored) = Ok () wd3
               ∧ wire wd3 = []
               ∧ sent (w wd3) = [(200, marker_only "HIT")]
               ∧ written (w wd3) = bytes_of "{}".
Proof.
  assert (served_from_cache DeskCache_Get cps_demo req_demo (world fs_demo) = false)
    as Hmiss by (vm_compute; reflexivity).
  assert (DeskCache_Set dc_demo (cacheKey req_demo) entry_demo [] fs_demo
          = Ok None fs_stored) as Hset by (vm_compute; reflexivity).
  split; [reflexivity|]. split; [exact Hmiss|].
  split; [exact storable_entry_demo|]. split; [exact Hset|].
  destruct (disk_miss_then_hit client_demo [] cps_demo req_demo [] [1%nat]
              (world fs_demo) _ 200 (Headers entry_demo) (Body entry_demo)
              fs_stored eq_refl eq_refl Hmiss eq_refl eq_refl eq_refl
              storable_entry_demo Hset)
    as (wd1 & Hrun1 & Hstore1 & _ & Hnext).
  exists wd1. split; [exact Hrun1|]. split; [exact Hstore1|].
  destruct (Hnext (world fs_stored) eq_refl eq_refl)
    as (wd3 & Hrun3 & Hwire & _ & Hsent & Hbody).
  exists wd3. split; [exact Hrun3|]. split; [exact Hwire|].
  split; [exact Hsent|exact Hbody].
Defined.

Section comma_facts.

Lemma Split_concat_flat x xs sep :
  Split (String.concat (String sep "") (x :: xs)) sep
  = flat_map (λ s, Split s sep) (x :: xs).
Proof.
  revert x. induction xs as [|y ys IH]; intros x.
  - simpl. by rewrite app_nil_r.
  - rewrite concat_sep_cons, append_cons, append_nil_l, Split_app_sep, IH.
    done.
Qed.

Lemma record_of_header_record_split k vv :
  contains k comma = false →
  record_of_line (header_record (k, vv)) = (k, split_values vv).
Proof.
  intros Hk. unfold record_of_line, header_record, COMMA. cbn [fst snd].
  rewrite (Split_concat_flat k vv comma). cbn [flat_map].
  by rewrite Split_free.
Qed.

Lemma split_values_not_nil vv : vv ≠ [] → split_values vv ≠ [].
Proof.
  destruct vv as [|v vv]; [done|]. intros _. unfold split_values. simpl.
  pose proof (Split_not_nil v comma). by destruct (Split v comma).
Qed.

Lemma transportable_header_spec k vv :
  transportable_header k vv = true →
  CanonicalMIMEHeaderKey k = k ∧ vv ≠ []
  ∧ contains k comma = false
  ∧ Forall (λ s, contains s nl = false) (k :: vv).
Proof.
  unfold transportable_header, plain.
  rewrite !andb_true_iff, !negb_true_iff, bool_decide_eq_true,
    bool_decide_eq_false, forallb_forall.
  intros (((Hk & Hkc & Hkn) & Hvv) & Hall). repeat split; [done..|].
  constructor; [done|]. apply Forall_forall. intros v Hv.
  apply list_elem_of_In, Hall in Hv. by apply negb_true_iff in Hv.
Qed.

Lemma add_records_canonical entries (h : Header) :
  NoDup entries.*1 →
  Forall (λ kvv, CanonicalMIMEHeaderKey kvv.1 = kvv.1 ∧ kvv.2 ≠ []) entries →
  (∀ k, k ∈ entries.*1 → h !! k = None) →
  fold_left add_record entries h = list_to_map entries ∪ h.
Proof.
  revert h. induction entries as [|[k vv] entries IH]; intros h Hnd Hst Hh.
  - simpl. by rewrite (left_id_L ∅ (∪)).
  - cbn [fold_left]. inversion Hnd as [|?? Hk Hnd']; subst.
    inversion Hst as [|?? [Hcanon Hvv] Hst']; subst. simpl in Hcanon, Hvv.
    rewrite add_record_canonical by done.
    unfold values. rewrite Hh by (simpl; left). simpl.
    rewrite IH; [|done..|].
    + cbn [list_to_map foldr]. simpl.
      rewrite <- insert_union_l. symmetry. apply insert_union_r.
      by apply not_elem_of_list_to_map_1.
    + intros k' Hk'. rewrite lookup_insert_ne by (intros ->; done).
      apply Hh. simpl. by right.
Qed.

Lemma keys_prod_map (f : list string → list string)
    (entries : list (string * list string)) :
  (map (prod_map id f) entries).*1 = entries.*1.
Proof.
  induction entries as [|[k vv] entries IH]; [done|]. simpl. f_equal. exact IH.
Qed.

(** Reading back the headers file of transportable headers gives the
    headers with their values cut at the commas. *)
Lemma parseHeaders_split entries :
  NoDup entries.*1 →
  Forall (λ kvv, transportable_header kvv.1 kvv.2 = true) entries →
  parseHeaders (headers_file entries)
  = split_values <$> (list_to_map entries : Header).
Proof.
  intros Hnd Hst.
  rewrite parseHeaders_records, headers_file_lines, Split_lines.
  - rewrite map_app, fold_left_app. cbn [map fold_left].
    rewrite add_record_malformed by done.
    rewrite map_map.
    rewrite (map_ext_Forall _ (prod_map id split_values)).
    + rewrite add_records_canonical.
      * rewrite (right_id_L ∅ (∪)). apply list_to_map_fmap.
      * by rewrite keys_prod_map.
      * apply Forall_map. eapply Forall_impl; [exact Hst|].
        intros [k vv] (Hc & Hvv & _)%transportable_header_spec. simpl.
        split; [done|]. by apply split_values_not_nil.
      * intros k _. apply lookup_empty.
    + eapply Forall_impl; [exact Hst|]. intros [k vv] Hkv.
      apply transportable_header_spec in Hkv as (_ & _ & Hc & _).
      by apply record_of_header_record_split.
  - apply Forall_map. eapply Forall_impl; [exact Hst|].
    intros [k vv] Hkv.
    apply transportable_header_spec in Hkv as (_ & _ & _ & Hn).
    by apply contains_concat.
Qed.

End comma_facts.

(** X16.  What the headers format does to values: when [Set] returns no
    error for an entry whose header names are canonical and free of
    delimiters and whose values hold no newline, the [Get] that follows
    finds the entry with the same status code and body, and with each
    header's values cut at their commas, in order (a value without a comma
    comes back as it is). *)
Theorem set_get_splits_at_commas dc key ce seed fs fs' :
  is_int (StatusCode ce) →
  transportable (Headers ce) →
  DeskCache_Set dc key ce seed fs = Ok None fs' →
  DeskCache_Get dc key fs'
  = (Some {| StatusCode := StatusCode ce; Body := Body ce;
             Headers := split_values <$> Headers ce |}, true).
Proof.
  intros Hint Hst Hset. rewrite (Get_after_Set _ _ _ _ _ _ Hset).
  rewrite Atoi_Itoa by done. simpl.
  rewrite headersStr_format, parseHeaders_split.
  - by rewrite range_to_map.
  - apply range_NoDup.
  - apply Forall_forall. intros [k vv] Hin.
    apply elem_of_range in Hin. by apply Hst in Hin.
Qed.

Lemma set_get_splits_at_commas_witness :
  is_int (StatusCode entry_commas)
  ∧ transportable (Headers entry_commas)
  ∧ DeskCache_Set dc_demo "GET-/users" entry_commas [] fs_demo
    = Ok None (final_state (DeskCache_Set dc_demo "GET-/users" entry_commas [] fs_demo))
  ∧ DeskCache_Get dc_demo "GET-/users"
      (final_state (DeskCache_Set dc_demo "GET-/users" entry_commas [] fs_demo))
    = (Some {| StatusCode := 200; Body := bytes_of "{}";
               Headers := split_values <$> Headers entry_commas |}, true).
Proof.
  assert (is_int (StatusCode entry_commas)) as Hint.
  { unfold is_int. vm_compute. split; discriminate. }
  assert (transportable (Headers entry_commas)) as Hst.
  { unfold transportable, entry_commas. simpl.
    apply map_Forall_insert_2; [reflexivity|]. apply map_Forall_empty. }
  assert (DeskCache_Set dc_demo "GET-/users" entry_commas [] fs_demo
          = Ok None (final_state (DeskCache_Set dc_demo "GET-/users" entry_commas
                                    [] fs_demo))) as Hset.
  { vm_compute. reflexivity. }
  split; [exact Hint|]. split; [exact Hst|]. split; [exact Hset|].
  exact (set_get_splits_at_commas dc_demo "GET-/users" entry_commas [] fs_demo _
           Hint Hst Hset).
Defined.

(** X17.  A GET can end the server: once the answer for a path is stored
    on disk, a GET for that path extended by [/status], [/headers] or
    [/body] that is fetched from the origin makes the handler call [Set]
    for a key whose entry directory is a regular file, and the process
    exits in [log.Fatalf] (after the response went out). *)
Theorem get_below_stored_path_exits (client : Client) (put_seed : list nat)
    (cps : CachingProxyServer DeskCache) (r r2 : Request) (seed : list nat)
    (wd : World FS) (ce : CacheEntry) (seed0 : list nat) (fs0 : FS) (f : string)
    (req : UpstreamRequest) (code : Z) (hdr : Header) (body : list byte) :
  DeskCache_Set (Cache_ cps) (cacheKey r) ce seed0 fs0 = Ok None (store wd) →
  f ∈ ["status"; "headers"; "body"] →
  Method r2 = "GET" → Method r = "GET" →
  Path (Url r2) = Path (Url r) +:+ "/" +:+ f →
  fresh wd →
  served_from_cache DeskCache_Get cps r2 wd = false →
  upstream_request client (Origin cps) r2 = Some req →
  fetched client (Origin cps) r2 = Some (code, hdr, body) →
  final_code code = true →
  ∃ wd', handleRequests_disk client put_seed cps r2 seed wd = Exit wd'
         ∧ store wd' = store wd
         ∧ sent (w wd') = [(code, marker_only "MISS")].
Proof.
  intros Hset Hf Hget2 Hget Hpath Hfresh Hmiss Hreq Hfetch Hcode.
  unfold handleRequests_disk.
  rewrite (miss_run DeskCache_Get (disk_put put_seed) client cps r2 seed wd
             req code hdr body) by done.
  rewrite bool_decide_eq_true_2 by done.
  assert (cacheKey r2 = cacheKey r +:+ "/" +:+ f) as ->.
  { unfold cacheKey. rewrite Hget2, Hget, Hpath. by rewrite !append_assoc. }
  unfold on_store, disk_put, bind. cbn [store w wire logs].
  rewrite Set_exits_on_file by (by eapply Stat_below_stored).
  eexists. split; [done|]. done.
Qed.

Lemma get_below_stored_path_exits_witness :
  DeskCache_Set dc_demo (cacheKey req_demo) entry_demo [] fs_demo = Ok None fs_stored
  ∧ Path (Url req_below) = Path (Url req_demo) +:+ "/" +:+ "status"
  ∧ served_from_cache DeskCache_Get cps_demo req_below (world fs_stored) = false
  ∧ ∃ wd', handleRequests_disk client_demo [] cps_demo req_below [] (world fs_stored)
             = Exit wd'
           ∧ store wd' = fs_stored.
Proof.
  assert (DeskCache_Set (Cache_ cps_demo) (cacheKey req_demo) entry_demo [] fs_demo
          = Ok None (store (world fs_stored))) as Hset by (vm_compute; reflexivity).
  assert ("status" ∈ ["status"; "headers"; "body"]) as Hin.
  { apply elem_of_cons. by left. }
  assert (served_from_cache DeskCache_Get cps_demo req_below (world fs_stored) = false)
    as Hmiss by (vm_compute; reflexivity).
  split; [exact Hset|]. split; [reflexivity|]. split; [exact Hmiss|].
  destruct (get_below_stored_path_exits client_demo [] cps_demo req_demo req_below
              [] (world fs_stored) entry_demo [] fs_demo "status" _ 200
              (Headers entry_demo) (Body entry_demo)
              Hset Hin eq_refl eq_refl eq_refl eq_refl Hmiss eq_refl eq_refl eq_refl)
    as (wd' & Hrun & Hstore & _).
  exists wd'. split; [exact Hrun|exact Hstore].
Defined.

Section set_succeeds_facts.
Implicit Types (dc : DeskCache) (fs : FS).










End set_succeeds_facts.



Section slash_facts.

(** An empty element is passed over by the element loop of [Clean],
    wherever it stands. *)
Lemma clean_elems_empty_elem rooted stk a b :
  clean_elems rooted stk (a ++ "" :: b) = clean_elems rooted stk (a ++ b).
Proof.
  revert stk. induction a as [|c a IH]; intros stk.
  - cbn [app clean_elems]. rewrite decide_True; [done|by left].
  - cbn [app clean_elems].
    destruct (decide (skipped c)); [apply IH|].
    destruct (decide (c = "..")); [|apply IH].
    destruct stk as [|x stk]; [destruct rooted; apply IH|].
    destruct (decide (x = "..")); apply IH.
Qed.

Lemma Clean_slash_end s : s ≠ "" → Clean (s +:+ "/") = Clean s.
Proof.
  intros Hs. unfold Clean. rewrite starts_with_app by done.
  change (s +:+ "/") with (s +:+ String "/"%char "").
  rewrite Split_app_sep. change (Split "" "/"%char) with [""].
  by rewrite clean_elems_empty_elem, app_nil_r.
Qed.

Lemma Clean_slash_twice s t :
  s ≠ "" → Clean (s +:+ "/" +:+ "/" +:+ t) = Clean (s +:+ "/" +:+ t).
Proof.
  intros Hs. unfold Clean. rewrite !starts_with_app by done.
  change (s +:+ "/" +:+ "/" +:+ t) with (s +:+ String "/"%char (String "/"%char t)).
  change (s +:+ "/" +:+ t) with (s +:+ String "/"%char t).
  rewrite !Split_app_sep.
  assert (Split (String "/"%char t) "/"%char = "" :: Split t "/"%char) as ->.
  { cbn [Split]. by rewrite decide_True. }
  by rewrite clean_elems_empty_elem.
Qed.

Lemma joined_slash d k : k ≠ "" → joined d (k +:+ "/") = joined d k +:+ "/".
Proof.
  intros Hk. unfold joined. case_decide; [done|].
  by rewrite !append_assoc.
Qed.

Lemma joined_key_not_empty d k : k ≠ "" → joined d k ≠ "".
Proof. intros Hk [_ ?]%joined_empty. done. Qed.

Lemma append_not_empty (a b : string) : a ≠ "" → a +:+ b ≠ "".
Proof. by destruct a. Qed.

Lemma Join_dir_slash d k : k ≠ "" → Join [d; k +:+ "/"] = Join [d; k].
Proof.
  intros Hk. pose proof (joined_key_not_empty d k Hk) as Hj.
  rewrite (Join_dir d (k +:+ "/")), (Join_dir d k), joined_slash by
    (rewrite ?joined_slash by done; try apply append_not_empty; done).
  by apply Clean_slash_end.
Qed.

Lemma Join_file_slash d k f : k ≠ "" → Join [d; k +:+ "/"; f] = Join [d; k; f].
Proof.
  intros Hk. pose proof (joined_key_not_empty d k Hk) as Hj.
  rewrite (Join_file d (k +:+ "/")), (Join_file d k), joined_slash by
    (rewrite ?joined_slash by done; try apply append_not_empty; done).
  rewrite append_assoc. by apply Clean_slash_twice.
Qed.

End slash_facts.

(** X19.  A slash at the end of a key changes nothing: [filepath.Join]
    cleans it away, so the key with the slash and the key without it name
    one entry directory, [Get] returns for one what it returns for the
    other, and [Set] writes the same files.  The handler's keys end in the
    request path, so [/users/] and [/users] share one cache entry. *)
Theorem trailing_slash_shares_entry dc key ce seed fs :
  key ≠ "" →
  DeskCache_Get dc (key +:+ "/") fs = DeskCache_Get dc key fs
  ∧ DeskCache_Set dc (key +:+ "/") ce seed fs = DeskCache_Set dc key ce seed fs.
Proof.
  intros Hk. split.
  - unfold DeskCache_Get. by rewrite !Join_file_slash.
  - unfold DeskCache_Set. by rewrite Join_dir_slash.
Qed.

Lemma trailing_slash_shares_entry_witness :
  cacheKey req_demo ≠ ""
  ∧ cacheKey req_slash = cacheKey req_demo +:+ "/"
  ∧ DeskCache_Get dc_demo (cacheKey req_demo) fs_stored = (Some entry_demo, true)
  ∧ DeskCache_Get dc_demo (cacheKey req_slash) fs_stored
    = DeskCache_Get dc_demo (cacheKey req_demo) fs_stored
  ∧ served_from_cache DeskCache_Get cps_demo req_slash (world fs_stored) = true.
Proof.
  assert (cacheKey req_demo ≠ "") as Hk by done.
  split; [exact Hk|]. split; [reflexivity|].
  split; [vm_compute; reflexivity|].
  split; [|vm_compute; reflexivity].
  exact (proj1 (trailing_slash_shares_entry dc_demo (cacheKey req_demo)
                  entry_demo [] fs_stored Hk)).
Defined.
